(** * Airbnb Seattle dashboard (app.py): filter engine and aggregations

    A shallow embedding of the straight-line Streamlit script [app.py].
    The script loads a listings table, narrows it with four sidebar
    criteria, and feeds the narrowed table to three KPI cards, a CSV
    export and six charts.

    Conventions of the embedding.
    - A pandas cell that may be blank is an [option]: [None] is NaN.
    - float64 values are idealised as exact rationals ([Qc]); only the
      order of values and exact sums and quotients are used below.
    - A DataFrame is the list of its rows in index order; a column is the
      list obtained by projecting every row. *)

From Stdlib Require Import QArith Qcanon Ascii String.
From stdpp Require Import base decidable option numbers list sorting strings pretty gmap.

Local Open Scope Qc_scope.

(** ** Data model *)

(** One row of [cleaned_listings.csv], restricted to the columns the script
    reads. *)
Record Row := mkRow {
  name : option string;
  neighbourhood_cleansed : option string;
  room_type : option string;
  price : option Qc;
  host_is_superhost : option bool;
  review_score_avg : option Qc;
  availability_365 : option Qc;
  cancellation_policy : option string;
  reviews_per_month : option Qc
}.

Global Instance Row_eq_dec : EqDecision Row.
Proof. solve_decision. Defined.

Global Instance Row_inhabited : Inhabited Row :=
  populate (mkRow None None None None None None None None None).

Abbreviation Table := (list Row).

(** The values handed back by the four sidebar widgets (lines 53-56). A
    multiselect hands back some of the options it was given, which are
    cells of the column. *)
Record Criteria := mkCriteria {
  neighborhoods : list (option string);
  room_types : list (option string);
  min_price : Z;
  max_price : Z;
  superhost_filter : bool
}.

(** ** Column operations *)

(** [Series.isin(values)]: the cell is one of the values (a NaN cell
    matches a NaN among the values). *)
Definition isin (values : list (option string)) (cell : option string) : bool :=
  bool_decide (cell ∈ values).

(** [series >= k] and [series <= k] against an integer; comparing NaN
    yields False. *)
Definition ge_int (k : Z) (cell : option Qc) : bool :=
  match cell with
  | Some q => bool_decide (Qc_of_Z k ≤ q)
  | None => false
  end.

Definition le_int (k : Z) (cell : option Qc) : bool :=
  match cell with
  | Some q => bool_decide (q ≤ Qc_of_Z k)
  | None => false
  end.

(** [series == True] on a column of True / False / NaN. *)
Definition eq_True (cell : option bool) : bool :=
  match cell with
  | Some b => b
  | None => false
  end.

(** [df[mask]]: boolean indexing keeps the rows whose mask entry is True,
    in index order. *)
Fixpoint boolean_index (df : Table) (mask : list bool) : Table :=
  match df, mask with
  | r :: df', b :: mask' =>
      if b then r :: boolean_index df' mask' else boolean_index df' mask'
  | _, _ => []
  end.

(** ** Filter engine (lines 58-65) *)

Definition filter_neighborhoods (c : Criteria) (df : Table) : Table :=
  match neighborhoods c with
  | [] => df
  | _ :: _ =>
      boolean_index df (map (λ r, isin (neighborhoods c) (neighbourhood_cleansed r)) df)
  end.

Definition filter_room_types (c : Criteria) (df : Table) : Table :=
  match room_types c with
  | [] => df
  | _ :: _ => boolean_index df (map (λ r, isin (room_types c) (room_type r)) df)
  end.

Definition filter_price (c : Criteria) (df : Table) : Table :=
  boolean_index df
    (map (λ r, ge_int (min_price c) (price r) && le_int (max_price c) (price r)) df).

Definition filter_superhost (c : Criteria) (df : Table) : Table :=
  if superhost_filter c
  then boolean_index df (map (λ r, eq_True (host_is_superhost r)) df)
  else df.

Definition apply_filters (c : Criteria) (df : Table) : Table :=
  let filtered_df := df in
  let filtered_df := filter_neighborhoods c filtered_df in
  let filtered_df := filter_room_types c filtered_df in
  let filtered_df := filter_price c filtered_df in
  let filtered_df := filter_superhost c filtered_df in
  filtered_df.

(** The per-row predicates the masks compute; an empty selection and an
    unticked checkbox restrict nothing. *)
Definition neighbourhood_ok (c : Criteria) (r : Row) : bool :=
  match neighborhoods c with
  | [] => true
  | _ :: _ => isin (neighborhoods c) (neighbourhood_cleansed r)
  end.

Definition room_type_ok (c : Criteria) (r : Row) : bool :=
  match room_types c with
  | [] => true
  | _ :: _ => isin (room_types c) (room_type r)
  end.

Definition price_ok (c : Criteria) (r : Row) : bool :=
  ge_int (min_price c) (price r) && le_int (max_price c) (price r).

Definition superhost_ok (c : Criteria) (r : Row) : bool :=
  if superhost_filter c then eq_True (host_is_superhost r) else true.

Definition row_ok (c : Criteria) (r : Row) : bool :=
  neighbourhood_ok c r && room_type_ok c r && price_ok c r && superhost_ok c r.

(** ** Aggregation layer *)

(** A pandas Series indexed by group label. *)
Abbreviation Series := (list (string * option Qc)).

(** The cells of a column that are not NaN. *)
Definition dropna {A} (col : list (option A)) : list A := omap id col.

Definition sum_Qc (xs : list Qc) : Qc := foldr Qcplus 0 xs.

(** [Series.mean()]: NaN cells are skipped; the mean of nothing is NaN. *)
Definition mean (col : list (option Qc)) : option Qc :=
  match dropna col with
  | [] => None
  | x :: xs => Some (sum_Qc (x :: xs) / Qc_of_Z (Z.of_nat (length (x :: xs))))
  end.

Definition Qc_max (a b : Qc) : Qc := if decide (a ≤ b) then b else a.

(** [Series.max()]: NaN cells are skipped; the maximum of nothing is NaN. *)
Definition col_max (col : list (option Qc)) : option Qc :=
  match dropna col with
  | [] => None
  | x :: xs => Some (foldl Qc_max x xs)
  end.

(** [Series.unique()] followed by [sorted]: the group labels in the order
    [groupby] (sort=True) emits them. Rows whose key is NaN belong to no
    group. *)
Definition group_keys (keys : list (option string)) : list string :=
  merge_sort String.le (remove_dups (dropna keys)).

(** [df.groupby(key)[col].mean()]. *)
Definition groupby_mean (key : Row → option string) (col : Row → option Qc)
    (df : Table) : Series :=
  map (λ k, (k, mean (map col (filter (λ r, key r = Some k) df))))
      (group_keys (map key df)).

(** [a[indexer]]: the entries of [a] at the listed positions, in the
    order listed. Every indexer built below stays inside [a]. *)
Definition take_at {A} (indexer : list nat) (a : list A) : list A :=
  omap (λ i, a !! i) indexer.

(** [ndarray.argsort(kind='quicksort')], the sort pandas requests from
    numpy when [sort_values] is called without [kind]. Its contract: the
    result lists every position once, and the values read in that order
    ascend. Which of two equal values comes first is left open (only the
    kinds 'stable' and 'mergesort' promise that), so it is left open
    here too. *)
Class ArgSort := {
  argsort : list Qc → list nat;
  argsort_perm : ∀ a, argsort a ≡ₚ seq 0 (length a);
  argsort_sorted : ∀ a, Sorted Qcle (take_at (argsort a) a)
}.

(** Positions and values of the cells that are not NaN, and the positions
    of those that are. *)
Fixpoint non_nan_from (i : nat) (items : list (option Qc)) : list (nat * Qc) :=
  match items with
  | [] => []
  | Some x :: items' => (i, x) :: non_nan_from (S i) items'
  | None :: items' => non_nan_from (S i) items'
  end.

Fixpoint nan_from (i : nat) (items : list (option Qc)) : list nat :=
  match items with
  | [] => []
  | Some _ :: items' => nan_from (S i) items'
  | None :: items' => i :: nan_from (S i) items'
  end.

(** [pandas.core.sorting.nargsort] with [na_position='last']: sort the
    non-NaN cells (for a descending sort, reverse them, sort ascending, and
    reverse the outcome), then append the NaN positions. *)
Definition nargsort `{ArgSort} (items : list (option Qc)) (ascending : bool)
    : list nat :=
  let non_nan := non_nan_from 0 items in
  let non_nan := if ascending then non_nan else reverse non_nan in
  let non_nan_idx := non_nan.*1 in
  let non_nans := non_nan.*2 in
  let indexer := take_at (argsort non_nans) non_nan_idx in
  let indexer := if ascending then indexer else reverse indexer in
  indexer ++ nan_from 0 items.

(** [Series.sort_values(ascending=...)]. *)
Definition sort_values `{ArgSort} (ascending : bool) (s : Series) : Series :=
  take_at (nargsort (s.*2) ascending) s.

(** Two sorts that meet the contract of [argsort]. Both order the
    (position, value) pairs by merging; they differ in which of two equal
    values they put first. *)
Definition by_value : relation (nat * Qc) := λ p q, p.2 ≤ q.2.

Definition by_value_then_later : relation (nat * Qc) := λ p q,
  p.2 < q.2 ∨ (p.2 = q.2 ∧ (q.1 ≤ p.1)%nat).

Global Instance by_value_dec : RelDecision by_value.
Proof. intros p q. unfold by_value. apply _. Defined.

Global Instance by_value_then_later_dec : RelDecision by_value_then_later.
Proof. intros p q. unfold by_value_then_later. apply _. Defined.

Definition argsort_with (R : relation (nat * Qc)) `{!RelDecision R}
    (a : list Qc) : list nat :=
  (merge_sort R (imap (λ i x, (i, x)) a)).*1.

(** The order on cells in which a sorted Series lists its values: [R] on
    numbers, and NaN after everything. *)
Definition nan_last (R : relation Qc) : relation (option Qc) := λ a b,
  match a, b with
  | Some x, Some y => R x y
  | _, None => True
  | None, Some _ => False
  end.

(** Entries of [out] that carry the same value stand in the order they
    have in [groups]. *)
Definition ties_keep_group_order (groups out : Series) : Prop :=
  ∀ i j a b v, (i < j)%nat →
    out !! i = Some (a, v) → out !! j = Some (b, v) →
    ∃ i' j', (i' < j')%nat ∧
             groups !! i' = Some (a, v) ∧ groups !! j' = Some (b, v).

(** [Series.head(n)]. *)
Definition head (n : nat) (s : Series) : Series := take n s.

(** Line 85. *)
Definition top_neigh `{ArgSort} (filtered_df : Table) : Series :=
  head 10 (sort_values false (groupby_mean neighbourhood_cleansed price filtered_df)).

(** Line 105. *)
Definition top_avail `{ArgSort} (filtered_df : Table) : Series :=
  head 10
    (sort_values false (groupby_mean neighbourhood_cleansed availability_365 filtered_df)).

(** Line 119. *)
Definition avg_reviews `{ArgSort} (filtered_df : Table) : Series :=
  sort_values true (groupby_mean room_type reviews_per_month filtered_df).

(** Line 94: one pull entry per distinct room type cell (NaN counts as
    one value for [unique]). *)
Definition pull (filtered_df : Table) : list Qc :=
  replicate (length (remove_dups (map room_type filtered_df)))
    (Qc_of_Z 5 / Qc_of_Z 100).

(** ** KPI cards (lines 75-77) *)

(** [int(x)] on a float truncates toward zero. *)
Definition int_of (x : Qc) : Z := Z.quot (Qnum x) (Zpos (Qden x)).

(** Round to the nearest integer, ties to even. *)
Definition round_half_even (x : Qc) : Z :=
  let n := Qnum x in
  let d := Zpos (Qden x) in
  let fl := (n `div` d)%Z in
  let twice := (2 * (n `mod` d))%Z in
  if (twice <? d)%Z then fl
  else if (d <? twice)%Z then (fl + 1)%Z
  else if Z.even fl then fl else (fl + 1)%Z.

Definition two_digits (n : Z) : string :=
  if (n <? 10)%Z then "0" +:+ pretty n else pretty n.

(** The format spec [.2f]; NaN prints as [nan]. *)
Definition format_2f (x : option Qc) : string :=
  match x with
  | None => "nan"
  | Some v =>
      let m := Z.abs (round_half_even (v * Qc_of_Z 100)) in
      (if decide (v < 0) then "-" else EmptyString)
        +:+ pretty (m `div` 100)%Z +:+ "." +:+ two_digits (m `mod` 100)%Z
  end.

(** The format spec [,] on a length: digits in groups of three. *)
Fixpoint commas_rev (ds : list ascii) : list ascii :=
  match ds with
  | a :: b :: c :: (_ :: _) as rest => a :: b :: c :: ","%char :: commas_rev rest
  | _ => ds
  end.

Definition format_thousands (n : nat) : string :=
  string_of_list_ascii
    (reverse (commas_rev (reverse (list_ascii_of_string (pretty n))))).

Definition kpi_listings (filtered_df : Table) : string :=
  format_thousands (length filtered_df).

Definition kpi_avg_price (filtered_df : Table) : string :=
  "$" +:+ format_2f (mean (map price filtered_df)).

Definition kpi_avg_rating (filtered_df : Table) : string :=
  format_2f (mean (map review_score_avg filtered_df)).

(** ** The script as a whole *)

(** DataFrames are objects: a name such as [df] or [filtered_df] is bound
    to a reference, and the session's store maps references to the tables
    they currently hold. A step of the script either raises or returns a
    value together with the store it leaves behind. *)
Inductive exn :=
  | ValueError   (* int() of NaN; a plotly chart given no data *)
  | TypeError    (* ordering a str against a float NaN *)
  | StreamlitAPIException (* a slider bound no browser holds exactly *)
  | Dangling.    (* a reference without an object behind it *)

Record Session := mkSession {
  frames : gmap nat Table;
  next_ref : nat
}.

Definition M (A : Type) : Type := Session → exn + A * Session.

Global Instance M_ret : MRet M := λ A a s, inr (a, s).
Global Instance M_bind : MBind M := λ A B f m s,
  match m s with
  | inl e => inl e
  | inr (a, s') => f a s'
  end.

Definition lift {A} (x : exn + A) : M A := λ s,
  match x with
  | inl e => inl e
  | inr a => inr (a, s)
  end.

(** A fresh object holding [t]. *)
Definition new_frame (t : Table) : M nat := λ s,
  inr (next_ref s, mkSession (<[next_ref s := t]> (frames s)) (S (next_ref s))).

(** The table behind a reference. *)
Definition get_frame (r : nat) : M Table := λ s,
  match frames s !! r with
  | Some t => inr (t, s)
  | None => inl Dangling
  end.

(** [load_data()] (lines 37-41): the cached parse of the CSV file, handed
    out as an object of its own. *)
Definition load_data (cleaned_listings : Table) : M nat :=
  new_frame cleaned_listings.

(** [df.copy()]. *)
Definition copy (r : nat) : M nat := t ← get_frame r; new_frame t.

(** [df[col_expr]]: the boolean mask a column expression yields. *)
Definition mask_of (r : nat) (f : Row → bool) : M (list bool) :=
  t ← get_frame r; mret (map f t).

(** [df[mask]]: the selected rows, as a new object. *)
Definition getitem (r : nat) (mask : list bool) : M nat :=
  t ← get_frame r; new_frame (boolean_index t mask).

(** [sorted(col.unique())] (lines 53-54). A column that mixes text with NaN
    cannot be ordered. *)
Definition sorted_unique (col : list (option string)) : exn + list (option string) :=
  match dropna col with
  | [] => inr (remove_dups col)
  | _ :: _ =>
      if bool_decide (None ∈ col) then inl TypeError
      else inr (Some <$> merge_sort String.le (remove_dups (dropna col)))
  end.

(** The bounds handed to the price slider (line 55):
    [0] and [int(df['price'].max())]. *)
Definition slider_bounds (df : Table) : exn + Z * Z :=
  match col_max (map price df) with
  | None => inl ValueError
  | Some m => inr (0%Z, int_of m)
  end.

(** The largest whole number a browser holds exactly. *)
Definition MAX_SAFE_INTEGER : Z := 2 ^ 53 - 1.

(** [st.slider(label, min_value, max_value, value)] with whole numbers
    and a pair for [value]: the range the widget offers. Streamlit puts
    the two bounds in order, widens them until they contain [value], and
    refuses a bound beyond [MAX_SAFE_INTEGER]. *)
Definition slider (min_value max_value : Z) (value : Z * Z) : exn + Z * Z :=
  let min_value := Z.min min_value max_value in
  let max_value := Z.max min_value max_value in
  let min_value := Z.min value.1 min_value in
  let max_value := Z.max value.2 max_value in
  if bool_decide (- MAX_SAFE_INTEGER ≤ min_value ∧ max_value ≤ MAX_SAFE_INTEGER)%Z
  then inr (min_value, max_value)
  else inl StreamlitAPIException.

(** Line 55 as a whole: the range of the price slider, whose preset
    selection is [(50, 500)]. The prices of a table are finite numbers, so
    [int()] has nothing but NaN to refuse. *)
Definition price_range_slider (df : Table) : exn + Z * Z :=
  match slider_bounds df with
  | inl e => inl e
  | inr (min_value, max_value) => slider min_value max_value (50%Z, 500%Z)
  end.

(** [px.line(x=s.index, y=s.values, ...)] (lines 86 and 120). With nothing
    in [x] and nothing in [y] plotly express takes both for lists of
    columns and refuses them. *)
Definition px_line (s : Series) : exn + Series :=
  match s with
  | [] => inl ValueError
  | _ :: _ => inr s
  end.

(** [px.area(x=s.index, y=s.values, ...)] (line 106) reads its arguments
    the way [px.line] does. *)
Definition px_area (s : Series) : exn + Series := px_line s.

(** What one run of the script puts on the page: the widget options and
    the slider's range, the three metrics, and the series drawn by the
    line and area charts. The pie, scatter and violin charts pass
    [filtered_df] itself to the plotting library; they read it and compute
    nothing in the script. *)
Record Dashboard := mkDashboard {
  neighborhood_options : list (option string);
  room_type_options : list (option string);
  price_slider : Z * Z;
  metric_listings : string;
  metric_avg_price : string;
  metric_avg_rating : string;
  fig1 : Series;
  fig2_pull : list Qc;
  fig4 : Series;
  fig : Series
}.

(** The page drawn from the table bound to [filtered_df] (lines 75-123). *)
Definition page_of `{ArgSort} (nb_options rt_options : list (option string))
    (bounds : Z * Z) (filtered_df : Table) : Dashboard :=
  {| neighborhood_options := nb_options;
     room_type_options := rt_options;
     price_slider := bounds;
     metric_listings := kpi_listings filtered_df;
     metric_avg_price := kpi_avg_price filtered_df;
     metric_avg_rating := kpi_avg_rating filtered_df;
     fig1 := top_neigh filtered_df;
     fig2_pull := pull filtered_df;
     fig4 := top_avail filtered_df;
     fig := avg_reviews filtered_df |}.

(** The charts that are built from a computed series, in the order of the
    script (lines 85-86, 105-106, 119-120): the first one that raises ends
    the run. *)
Definition draw `{ArgSort} (nb_options rt_options : list (option string))
    (bounds : Z * Z) (filtered_df : Table) : exn + Dashboard :=
  match px_line (top_neigh filtered_df) with
  | inl e => inl e
  | inr _ =>
      match px_area (top_avail filtered_df) with
      | inl e => inl e
      | inr _ =>
          match px_line (avg_reviews filtered_df) with
          | inl e => inl e
          | inr _ => inr (page_of nb_options rt_options bounds filtered_df)
          end
      end
  end.

(** Lines 58-65: the filter, on objects of its own. *)
Definition select_rows (ui : Criteria) (df : nat) : M nat :=
  filtered_df ← copy df;
  filtered_df ←
    match neighborhoods ui with
    | [] => mret filtered_df
    | _ :: _ =>
        mask ← mask_of filtered_df
                 (λ r, isin (neighborhoods ui) (neighbourhood_cleansed r));
        getitem filtered_df mask
    end;
  filtered_df ←
    match room_types ui with
    | [] => mret filtered_df
    | _ :: _ =>
        mask ← mask_of filtered_df (λ r, isin (room_types ui) (room_type r));
        getitem filtered_df mask
    end;
  mask ← mask_of filtered_df
           (λ r, ge_int (min_price ui) (price r) && le_int (max_price ui) (price r));
  filtered_df ← getitem filtered_df mask;
  if superhost_filter ui
  then mask ← mask_of filtered_df (λ r, eq_True (host_is_superhost r));
       getitem filtered_df mask
  else mret filtered_df.

(** Lines 41-123. [ui] holds what the user has selected in the sidebar;
    the result carries the reference bound to [df] next to the page. *)
Definition render `{ArgSort} (cleaned_listings : Table) (ui : Criteria)
    : M (nat * Dashboard) :=
  df ← load_data cleaned_listings;
  loaded ← get_frame df;
  nb_options ← lift (sorted_unique (map neighbourhood_cleansed loaded));
  rt_options ← lift (sorted_unique (map room_type loaded));
  bounds ← lift (price_range_slider loaded);
  filtered_df ← select_rows ui df;
  shown ← get_frame filtered_df;
  page ← lift (draw nb_options rt_options bounds shown);
  mret (df, page).

(** A session that has created no object yet. *)
Definition initial_session : Session := mkSession ∅ 0.

(** Every reference at or above the allocation counter is unused. *)
Definition fresh (s : Session) : Prop :=
  ∀ r, (next_ref s ≤ r)%nat → frames s !! r = None.

(** Every object of [s] is still there, unchanged, in [s']. *)
Definition extends (s s' : Session) : Prop :=
  ∀ r t, frames s !! r = Some t → frames s' !! r = Some t.

(** [m], started in [s], returns without raising, and the value and
    session it returns satisfy [Q]. *)
Definition wp {A} (m : M A) (s : Session) (Q : A → Session → Prop) : Prop :=
  ∃ a s', m s = inr (a, s') ∧ Q a s'.

(** What [m], started in [s], ends with, be it an exception or a value,
    satisfies [Q]. *)
Definition ends {A} (m : M A) (s : Session) (Q : exn + A * Session → Prop) : Prop :=
  Q (m s).

(** A step that leaves the session in order and returns a reference to an
    object holding [t]. *)
Definition produces (s : Session) (t : Table) : nat → Session → Prop :=
  λ r s', fresh s' ∧ extends s s' ∧ frames s' !! r = Some t.

(** A price range above every listing of the sample table. *)
Definition out_of_range : Criteria := mkCriteria [] [] 600 700 false.

(** A table in which every missing superhost cell is read as False. *)
Definition fill_false (r : Row) : Row :=
  match host_is_superhost r with
  | Some _ => r
  | None =>
      mkRow (name r) (neighbourhood_cleansed r) (room_type r) (price r)
        (Some false) (review_score_avg r) (availability_365 r)
        (cancellation_policy r) (reviews_per_month r)
  end.

(** ** The CSV export (line 69) and reading it back (line 39) *)

(** A cell of a table that [read_csv] returns. *)
Inductive Cell :=
  | NaN
  | Text (s : string)
  | Number (x : Qc)
  | Boolean (b : bool).

Global Instance Cell_eq_dec : EqDecision Cell.
Proof. solve_decision. Defined.

(** A table as [read_csv] returns it: the column names and, row by row
    in the order of the file, the cells. Numbers are told apart by value
    (whether a column holds them as int64 or float64 is not recorded), and
    the index labels, which [to_csv(index=False)] leaves out, are not
    part of it. *)
Abbreviation Frame := (list string * list (list Cell))%type.

Definition text_cell (c : option string) : Cell :=
  match c with Some s => Text s | None => NaN end.
Definition number_cell (c : option Qc) : Cell :=
  match c with Some x => Number x | None => NaN end.
Definition boolean_cell (c : option bool) : Cell :=
  match c with Some b => Boolean b | None => NaN end.

(** The columns of [Row], in its order. *)
Definition columns : list string :=
  ["name"; "neighbourhood_cleansed"; "room_type"; "price";
   "host_is_superhost"; "review_score_avg"; "availability_365";
   "cancellation_policy"; "reviews_per_month"].

Definition cells_of (r : Row) : list Cell :=
  [text_cell (name r); text_cell (neighbourhood_cleansed r);
   text_cell (room_type r); number_cell (price r);
   boolean_cell (host_is_superhost r); number_cell (review_score_avg r);
   number_cell (availability_365 r); text_cell (cancellation_policy r);
   number_cell (reviews_per_month r)].

(** A table of listings seen as a table of cells. *)
Definition frame_of (df : Table) : Frame := (columns, cells_of <$> df).

Definition LF : ascii := "010"%char.
Definition CR : ascii := "013"%char.
Definition NUL : ascii := "000"%char.
Definition QUOTE : ascii := "034"%char.
Definition COMMA : ascii := ","%char.

(** *** Printing a float *)

(** The number of decimals of [q], if it has a finite decimal expansion of
    at most 18 decimals. *)
Definition decimal_places (q : Qc) : option nat :=
  fst <$> list_find (λ k, (10 ^ N.of_nat k) `mod` Npos (Qden q) = 0)%N (seq 0 19).

(** The digits of [q] as a whole number, once the point is moved [k]
    places. *)
Definition mantissa (q : Qc) (k : nat) : N :=
  (Z.abs_N (Qnum q) * (10 ^ N.of_nat k `div` Npos (Qden q)))%N.

(** The last [k] decimal digits of [x]. *)
Fixpoint digits_fixed (k : nat) (x : N) : list ascii :=
  match k with
  | O => []
  | S k' => digits_fixed k' (x `div` 10)%N ++ [pretty_N_char (x `mod` 10)%N]
  end.

(** [repr] of a float, as [to_csv] writes a float64 cell, for the floats
    the embedding stands for: decimal numbers of at most 15 significant
    digits, which a float64 holds and prints back digit for digit, and of
    a size that [repr] prints without an exponent (zero, or from 0.0001 up
    to below 1e15). *)
Definition float_repr (q : Qc) : option string :=
  k ← decimal_places q;
  let m := mantissa q k in
  if bool_decide (m < 10 ^ 15 ∧ (m = 0 ∨ 10 ^ N.of_nat k ≤ m * 10 ^ 4))%N
  then Some ((if bool_decide (Qnum q < 0)%Z then "-" else EmptyString)
             +:+ pretty (m `div` 10 ^ N.of_nat k)%N
             +:+ "."
             +:+ match k with
                 | O => "0"
                 | S _ => string_of_list_ascii
                            (digits_fixed k (m `mod` 10 ^ N.of_nat k)%N)
                 end)
  else None.

(** *** Writing *)

(** The text of a cell: NaN is written as nothing ([na_rep='']). *)
Definition text_field (c : option string) : string := default EmptyString c.
Definition number_field (c : option Qc) : string :=
  default EmptyString (c ≫= float_repr).
Definition boolean_field (c : option bool) : string :=
  match c with
  | Some true => "True"
  | Some false => "False"
  | None => EmptyString
  end.

Definition fields_of (r : Row) : list string :=
  [text_field (name r); text_field (neighbourhood_cleansed r);
   text_field (room_type r); number_field (price r);
   boolean_field (host_is_superhost r); number_field (review_score_avg r);
   number_field (availability_365 r); text_field (cancellation_policy r);
   number_field (reviews_per_month r)].

(** [csv.QUOTE_MINIMAL]: a field is quoted when it holds the delimiter,
    the quote character or the line terminator. *)
Definition needs_quoting (field : list ascii) : bool :=
  bool_decide (Exists (λ c, c = COMMA ∨ c = QUOTE ∨ c = LF) field).

Definition double_quotes (field : list ascii) : list ascii :=
  field ≫= λ c, if bool_decide (c = QUOTE) then [QUOTE; QUOTE] else [c].

Definition write_field (field : list ascii) : list ascii :=
  if needs_quoting field then QUOTE :: double_quotes field ++ [QUOTE]
  else field.

(** One line of two or more fields. *)
Fixpoint write_record (fields : list (list ascii)) : list ascii :=
  match fields with
  | [] => [LF]
  | [f] => write_field f ++ [LF]
  | f :: fs => write_field f ++ COMMA :: write_record fs
  end.

(** The text the model writes: no carriage return (whether it is quoted
    depends on the version of the [csv] module) and no NUL. *)
Definition written_as_is (c : option string) : Prop :=
  match c with
  | Some s => (CR ∉ list_ascii_of_string s) ∧ (NUL ∉ list_ascii_of_string s)
  | None => True
  end.

(** The numbers the model writes. *)
Definition printed (c : option Qc) : Prop :=
  match c with
  | Some q => is_Some (float_repr q)
  | None => True
  end.

(** The rows the model exports. *)
Definition exportable (r : Row) : Prop :=
  (written_as_is (name r) ∧ written_as_is (neighbourhood_cleansed r) ∧
   written_as_is (room_type r) ∧ written_as_is (cancellation_policy r)) ∧
  (printed (price r) ∧ printed (review_score_avg r) ∧
   printed (availability_365 r) ∧ printed (reviews_per_month r)).

Global Instance written_as_is_dec c : Decision (written_as_is c).
Proof. destruct c; apply _. Defined.

Global Instance printed_dec c : Decision (printed c).
Proof. destruct c; apply _. Defined.

Global Instance exportable_dec r : Decision (exportable r).
Proof. unfold exportable. apply _. Defined.

(** [filtered_df.to_csv(index=False)] (line 69), with [.encode('utf-8')]:
    strings are the byte strings of their UTF-8 encoding. The header line
    comes first and the line terminator is the line feed. [None] stands
    for a table with a cell the model does not write. *)
Definition to_csv (df : Table) : option string :=
  if decide (Forall exportable df)
  then Some (string_of_list_ascii
               (((λ fields : list string, list_ascii_of_string <$> fields)
                   <$> (columns :: (fields_of <$> df)))
                ≫= write_record))
  else None.

(** *** Reading *)

(** The states of the tokenizer. *)
Inductive State :=
  | START_RECORD
  | START_FIELD
  | IN_FIELD
  | IN_QUOTED_FIELD
  | QUOTE_IN_QUOTED_FIELD
  | WHITESPACE_LINE.

Definition is_whitespace (c : ascii) : bool :=
  bool_decide (c = " "%char ∨ c = "009"%char).

(** The tokenizer of the C parser, for the input it is known to treat as
    written here: it takes [input] apart into records of fields; [field]
    and [record] hold, latest first, the characters of the field and the
    fields of the record being read. [None] stands for input outside the
    model (a carriage return, a NUL, a quote inside an unquoted field or
    something other than a delimiter after a closing quote, a line of
    blanks only) and for input the parser rejects (the end of the input
    inside quotes). *)
Fixpoint tokenize (st : State) (field : list ascii) (record : list (list ascii))
    (records : list (list (list ascii))) (input : list ascii)
    : option (list (list (list ascii))) :=
  let end_field := reverse field :: record in
  let end_record := reverse end_field :: records in
  match input with
  | [] =>
      match st with
      | START_RECORD => Some (reverse records)
      | START_FIELD | IN_FIELD | QUOTE_IN_QUOTED_FIELD => Some (reverse end_record)
      | IN_QUOTED_FIELD | WHITESPACE_LINE => None
      end
  | c :: input =>
      if bool_decide (c = CR ∨ c = NUL) then None else
      match st with
      | START_RECORD =>
          if bool_decide (c = LF) then tokenize START_RECORD [] [] records input
          else if bool_decide (c = COMMA) then tokenize START_FIELD [] [[]] records input
          else if bool_decide (c = QUOTE) then tokenize IN_QUOTED_FIELD [] [] records input
          else if is_whitespace c then tokenize WHITESPACE_LINE [c] [] records input
          else tokenize IN_FIELD [c] [] records input
      | START_FIELD =>
          if bool_decide (c = LF) then tokenize START_RECORD [] [] end_record input
          else if bool_decide (c = COMMA) then tokenize START_FIELD [] end_field records input
          else if bool_decide (c = QUOTE) then tokenize IN_QUOTED_FIELD [] record records input
          else tokenize IN_FIELD [c] record records input
      | IN_FIELD =>
          if bool_decide (c = LF) then tokenize START_RECORD [] [] end_record input
          else if bool_decide (c = COMMA) then tokenize START_FIELD [] end_field records input
          else if bool_decide (c = QUOTE) then None
          else tokenize IN_FIELD (c :: field) record records input
      | WHITESPACE_LINE =>
          if bool_decide (c = LF) then None
          else if bool_decide (c = COMMA) then tokenize START_FIELD [] end_field records input
          else if bool_decide (c = QUOTE) then None
          else if is_whitespace c then tokenize WHITESPACE_LINE (c :: field) record records input
          else tokenize IN_FIELD (c :: field) record records input
      | IN_QUOTED_FIELD =>
          if bool_decide (c = QUOTE) then tokenize QUOTE_IN_QUOTED_FIELD field record records input
          else tokenize IN_QUOTED_FIELD (c :: field) record records input
      | QUOTE_IN_QUOTED_FIELD =>
          if bool_decide (c = QUOTE) then tokenize IN_QUOTED_FIELD (c :: field) record records input
          else if bool_decide (c = LF) then tokenize START_RECORD [] [] end_record input
          else if bool_decide (c = COMMA) then tokenize START_FIELD [] end_field records input
          else None
      end
  end.

(** The default missing-value markers of [read_csv]. *)
Definition NA_VALUES : list string :=
  [EmptyString; "#N/A"; "#N/A N/A"; "#NA"; "-1.#IND"; "-1.#QNAN"; "-NaN";
   "-nan"; "1.#IND"; "1.#QNAN"; "<NA>"; "N/A"; "NA"; "NULL"; "NaN"; "n/a";
   "nan"; "null"].

Definition is_digit (c : ascii) : bool :=
  bool_decide (48 ≤ N_of_ascii c ≤ 57)%N.

Definition digit_value (c : ascii) : option N :=
  if is_digit c then Some (N_of_ascii c - 48)%N else None.

Fixpoint parse_digits (acc : N) (ds : list ascii) : option N :=
  match ds with
  | [] => Some acc
  | c :: ds => d ← digit_value c; parse_digits (10 * acc + d) ds
  end.

(** The characters before the first point, and those after it if there is
    one. *)
Fixpoint split_at_point (body : list ascii) : list ascii * option (list ascii) :=
  match body with
  | [] => ([], None)
  | c :: body =>
      if bool_decide (c = "."%char) then ([], Some body)
      else let '(whole, decimals) := split_at_point body in (c :: whole, decimals)
  end.

(** A plain decimal numeral: an optional minus sign, digits, and
    optionally a point followed by digits. *)
Definition parse_decimal (field : list ascii) : option Qc :=
  let '(negative, body) :=
    match field with
    | c :: body => if bool_decide (c = "-"%char) then (true, body) else (false, field)
    | [] => (false, [])
    end in
  let '(whole, decimals) := split_at_point body in
  match whole, decimals with
  | [], _ | _, Some [] => None
  | _, _ =>
      m ← parse_digits 0 (whole ++ default [] decimals);
      Some (Q2Qc (Qmake ((if negative : bool then -1 else 1) * Z.of_N m)
                        (Z.to_pos (10 ^ Z.of_nat (length (default [] decimals))))))
  end.

Definition lower (c : ascii) : ascii :=
  if bool_decide (65 ≤ N_of_ascii c ≤ 90)%N then ascii_of_N (N_of_ascii c + 32) else c.

(** Made of the characters of numerals only (digits, signs, point,
    exponent mark, blanks), with a digit among them. *)
Definition number_like (field : list ascii) : bool :=
  forallb (λ c, is_digit c ||
                bool_decide (c ∈ list_ascii_of_string "+-.eE" ∨
                             c = " "%char ∨ (9 ≤ N_of_ascii c ≤ 13)%N)) field
  && existsb is_digit field.

(** Infinity and NaN as words, in any case, signed or not. *)
Definition special_word (field : list ascii) : bool :=
  let word :=
    match field with
    | c :: body => if bool_decide (c = "-"%char ∨ c = "+"%char) then body else field
    | [] => []
    end in
  bool_decide (string_of_list_ascii (lower <$> word) ∈ ["inf"; "infinity"; "nan"]).

(** What a field is read as on its own. *)
Inductive Kind :=
  | KNa
  | KNumber (x : Qc)
  | KBoolean (b : bool)
  | KText
  | KUnsupported.

Global Instance Kind_eq_dec : EqDecision Kind.
Proof. solve_decision. Defined.

(** A field on its own: a missing-value marker, a number, a boolean, or
    text. A plain numeral is a number if it is one [float_repr] prints.
    [KUnsupported] marks the fields the model does not decide: numerals
    in another notation or beyond the floats of the model, infinity, and
    [None], a marker in some versions of pandas only. *)
Definition classify (field : string) : Kind :=
  let chars := list_ascii_of_string field in
  if bool_decide (field ∈ NA_VALUES) then KNa
  else if bool_decide (field = "None") then KUnsupported
  else match parse_decimal chars with
       | Some q => if bool_decide (is_Some (float_repr q)) then KNumber q else KUnsupported
       | None =>
           if number_like chars || special_word chars then KUnsupported
           else if bool_decide (field ∈ ["True"; "TRUE"; "true"]) then KBoolean true
           else if bool_decide (field ∈ ["False"; "FALSE"; "false"]) then KBoolean false
           else KText
       end.

(** What the fields of a column are read as together. *)
Inductive ColumnKind := Numbers | Booleans | Strings.

Global Instance ColumnKind_eq_dec : EqDecision ColumnKind.
Proof. solve_decision. Defined.

Definition number_or_na (k : Kind) : bool :=
  match k with KNa | KNumber _ => true | _ => false end.
Definition boolean_or_na (k : Kind) : bool :=
  match k with KNa | KBoolean _ => true | _ => false end.

(** Type inference, column by column: numbers if every field that is not
    a missing-value marker is a number, else booleans if every such
    field is a boolean, else text. *)
Definition column_kind (fields : list string) : option ColumnKind :=
  let kinds := classify <$> fields in
  if bool_decide (KUnsupported ∈ kinds) then None
  else if forallb number_or_na kinds then Some Numbers
  else if forallb boolean_or_na kinds then Some Booleans
  else Some Strings.

(** The cell a field becomes in a column of the given kind. *)
Definition cell_of (kind : ColumnKind) (field : string) : Cell :=
  match classify field, kind with
  | KNa, _ => NaN
  | KNumber x, Numbers => Number x
  | KBoolean b, Booleans => Boolean b
  | _, _ => Text field
  end.

(** The largest number of rows the model reads: [read_csv] infers the
    types of a larger file piece by piece ([low_memory=True]). *)
Definition chunk_rows : nat := 4096.

(** [pd.read_csv] (line 39) on the text of a file: the first record
    names the columns. [None] stands for input outside the model and for
    input that [read_csv] rejects. *)
Definition read_csv (input : string) : option Frame :=
  records ← tokenize START_RECORD [] [] [] (list_ascii_of_string input);
  match (λ record : list (list ascii), string_of_list_ascii <$> record) <$> records with
  | [] => None
  | header :: data =>
      if bool_decide (NoDup header ∧ (EmptyString ∉ header) ∧
                      Forall (λ record, length record = length header) data ∧
                      (length data ≤ chunk_rows)%nat)
      then kinds ← mapM (λ j, column_kind ((λ record, record !!! j) <$> data))
                        (seq 0 (length header));
           Some (header, (λ record, zip_with cell_of kinds record) <$> data)
      else None
  end.


(** A text cell that is not read as a missing value. *)
Definition is_text (c : option string) : Prop :=
  match c with
  | Some s => classify s ≠ KNa
  | None => True
  end.

Global Instance is_text_dec c : Decision (is_text c).
Proof. destruct c; apply _. Defined.

(** A column of text that is read back as text: no cell is a
    missing-value marker and, unless every cell is NaN, the fields of the
    column are not all numbers and not all booleans. *)
Definition reads_as_text (col : list (option string)) : Prop :=
  Forall is_text col ∧
  (Forall (λ c, c = None) col ∨ column_kind (text_field <$> col) = Some Strings).

(** A character the writer copies and the tokenizer keeps. *)
Definition kept (c : ascii) : Prop := c ≠ CR ∧ c ≠ NUL.

(** A character of a field that needs no quotes. *)
Definition bare (c : ascii) : Prop :=
  kept c ∧ ¬ (c = COMMA ∨ c = QUOTE ∨ c = LF).

(** The characters of a printed float: digits, a point, a minus sign. *)
Definition numeral_char (c : ascii) : bool :=
  is_digit c || bool_decide (c = "-"%char ∨ c = "."%char).


(** ** Sample listings *)

Definition dec (n d : Z) : Qc := Qc_of_Z n / Qc_of_Z d.

Definition listing_ballard : Row :=
  mkRow (Some "Cozy Loft") (Some "Ballard") (Some "Entire home/apt")
    (Some (Qc_of_Z 500)) (Some true) (Some (dec 48 10)) (Some (Qc_of_Z 120))
    (Some "strict") (Some (dec 25 10)).

Definition listing_fremont : Row :=
  mkRow (Some "Canal View") (Some "Fremont") (Some "Private room")
    (Some (dec 7505 10)) (Some false) (Some (dec 45 10)) (Some (Qc_of_Z 300))
    (Some "flexible") (Some (dec 12 10)).

Definition listing_wallingford : Row :=
  mkRow (Some "Garden Suite") (Some "Wallingford") (Some "Entire home/apt")
    (Some (Qc_of_Z 500)) (Some true) (Some (dec 49 10)) (Some (Qc_of_Z 200))
    (Some "moderate") None.

(** Two neighbourhoods with the same mean price. *)
Definition tied_listings : Table := [listing_ballard; listing_wallingford].

(** One listing in neighbourhood [nb], at a whole-number price. *)
Definition listing_in (nb : string) (p : Z) : Row :=
  mkRow (Some "Guest Room") (Some nb) (Some "Private room")
    (Some (Qc_of_Z p)) (Some false) (Some (dec 45 10)) (Some (Qc_of_Z 100))
    (Some "flexible") (Some (Qc_of_Z 1)).

(** Twenty neighbourhoods with one listing each, in alphabetical order,
    priced 200 and 100 in turn: ten mean prices of 200 tie for the ten
    places of the chart. *)
Definition twenty_neighbourhoods : Table :=
  [listing_in "Adams" 200;
   listing_in "Alki" 100;
   listing_in "Ballard" 200;
   listing_in "Belltown" 100;
   listing_in "Broadway" 200;
   listing_in "Cedar Park" 100;
   listing_in "Crown Hill" 200;
   listing_in "Eastlake" 100;
   listing_in "Fremont" 200;
   listing_in "Georgetown" 100;
   listing_in "Green Lake" 200;
   listing_in "Greenwood" 100;
   listing_in "Interbay" 200;
   listing_in "Laurelhurst" 100;
   listing_in "Madrona" 200;
   listing_in "Magnolia" 100;
   listing_in "Montlake" 200;
   listing_in "Phinney Ridge" 100;
   listing_in "Ravenna" 200;
   listing_in "Wallingford" 100].

(** A listing whose name is a number, as a flat number would be. *)
Definition listing_206 : Row :=
  mkRow (Some "206") (Some "Fremont") (Some "Private room")
    (Some (Qc_of_Z 95)) (Some false) (Some (dec 45 10)) (Some (Qc_of_Z 300))
    (Some "flexible") (Some (dec 12 10)).

(** Fremont only, with the slider at its preset selection. *)
Definition fremont_only : Criteria := mkCriteria [Some "Fremont"] [] 50 500 false.

(** The text of a file, given line by line. *)
Definition unlines (lines : list string) : string :=
  foldr (λ line rest, line +:+ String LF rest) EmptyString lines.

(** The export of the table that holds [listing_206] alone. *)
Definition export_206 : string :=
  unlines
    ["name,neighbourhood_cleansed,room_type,price,host_is_superhost,review_score_avg,availability_365,cancellation_policy,reviews_per_month";
     "206,Fremont,Private room,95.0,False,4.5,300.0,flexible,1.2"].

(** What [read_csv] makes of [export_206]: the name has become a
    number. *)
Definition read_back_206 : Frame :=
  (columns,
   [[Number (Qc_of_Z 206); Text "Fremont"; Text "Private room";
     Number (Qc_of_Z 95); Boolean false; Number (dec 45 10);
     Number (Qc_of_Z 300); Text "flexible"; Number (dec 12 10)]]).

(** The export of the two sample listings of Ballard and Fremont. *)
Definition export_sample : string :=
  unlines
    ["name,neighbourhood_cleansed,room_type,price,host_is_superhost,review_score_avg,availability_365,cancellation_policy,reviews_per_month";
     "Cozy Loft,Ballard,Entire home/apt,500.0,True,4.8,120.0,strict,2.5";
     "Canal View,Fremont,Private room,750.5,False,4.5,300.0,flexible,1.2"].

(** The whole slider range of a table whose dearest listing costs 750.50. *)
Definition whole_range_750 : Criteria := mkCriteria [] [] 0 750 false.

Global Instance exn_eq_dec : EqDecision exn.
Proof. solve_decision. Defined.

(** ** Comparing criteria *)

(** A selection that admits at least the cells [sel] admits: either it is
    empty (no restriction), or both are non-empty and it contains [sel]. *)
Definition selection_wider (sel sel' : list (option string)) : Prop :=
  sel' = [] ∨ (sel ≠ [] ∧ sel ⊆ sel').

(** [c'] restricts no more than [c] does, criterion by criterion. *)
Definition wider (c c' : Criteria) : Prop :=
  selection_wider (neighborhoods c) (neighborhoods c') ∧
  selection_wider (room_types c) (room_types c') ∧
  (min_price c' ≤ min_price c)%Z ∧
  (max_price c ≤ max_price c')%Z ∧
  (superhost_filter c' = false ∨ superhost_filter c = true).


(** A displayed count with its thousands separators taken out. *)
Definition strip_commas (s : string) : string :=
  string_of_list_ascii
    (filter (λ ch, ch ≠ ","%char) (list_ascii_of_string s)).

(** ** Facts about boolean indexing *)

Lemma boolean_index_map (f : Row → bool) (df : Table) :
  boolean_index df (map f df) = filter (λ r, f r) df.
Proof.
  induction df as [|r df IH]; [done|].
  rewrite filter_cons. cbn [map boolean_index]. rewrite IH.
  by destruct (f r).
Qed.

Lemma filter_all {A} (P : A → Prop) `{!∀ x, Decision (P x)} (l : list A) :
  Forall P l → filter P l = l.
Proof.
  induction 1 as [|x l Hx _ IH]; [done|].
  by rewrite filter_cons_True, IH.
Qed.

Lemma filter_neighborhoods_filter c df :
  filter_neighborhoods c df = filter (λ r, neighbourhood_ok c r) df.
Proof.
  unfold filter_neighborhoods, neighbourhood_ok.
  destruct (neighborhoods c) as [|n ns].
  - symmetry. apply filter_all, Forall_forall. done.
  - apply boolean_index_map.
Qed.

Lemma filter_room_types_filter c df :
  filter_room_types c df = filter (λ r, room_type_ok c r) df.
Proof.
  unfold filter_room_types, room_type_ok.
  destruct (room_types c) as [|n ns].
  - symmetry. apply filter_all, Forall_forall. done.
  - apply boolean_index_map.
Qed.

Lemma filter_price_filter c df :
  filter_price c df = filter (λ r, price_ok c r) df.
Proof. apply boolean_index_map. Qed.

Lemma filter_superhost_filter c df :
  filter_superhost c df = filter (λ r, superhost_ok c r) df.
Proof.
  unfold filter_superhost, superhost_ok.
  destruct (superhost_filter c).
  - apply boolean_index_map.
  - symmetry. apply filter_all, Forall_forall. done.
Qed.

(** The four successive narrowings amount to one pass that keeps the rows
    passing every predicate. *)
Lemma apply_filters_filter c df :
  apply_filters c df = filter (λ r, row_ok c r) df.
Proof.
  unfold apply_filters. cbv zeta.
  rewrite filter_superhost_filter, filter_price_filter,
    filter_room_types_filter, filter_neighborhoods_filter.
  rewrite !list_filter_filter.
  apply list_filter_iff. intros r. unfold row_ok.
  rewrite !andb_True. tauto.
Qed.

Lemma elem_of_apply_filters c df r :
  r ∈ apply_filters c df ↔ row_ok c r ∧ r ∈ df.
Proof.
  rewrite apply_filters_filter.
  apply (list_elem_of_filter (λ r, Is_true (row_ok c r))).
Qed.

Lemma isin_spec values cell : isin values cell ↔ cell ∈ values.
Proof. apply bool_decide_spec. Qed.

Lemma price_ok_spec c r :
  price_ok c r ↔
  ∃ p, price r = Some p ∧ Qc_of_Z (min_price c) ≤ p ∧ p ≤ Qc_of_Z (max_price c).
Proof.
  unfold price_ok, ge_int, le_int. destruct (price r) as [p|]; simpl.
  - rewrite andb_True, !bool_decide_spec. split.
    + intros ?. by exists p.
    + by intros (w & [= <-] & ?).
  - split; [intros [] | by intros (w & ? & _)].
Qed.

Lemma eq_True_spec cell : eq_True cell ↔ cell = Some true.
Proof. destruct cell as [[]|]; simpl; naive_solver. Qed.

(** ** The filter engine *)

(** C1. Every row of the filtered table is a row of the loaded table, and
    every row of the filtered table passes each active predicate: its
    neighbourhood is one of the selected ones (or none is selected), its
    room type is one of the selected ones (or none is selected), its price
    lies between [min_price] and [max_price] inclusive, and its
    [host_is_superhost] is True when the checkbox is ticked. *)
Theorem filtered_rows_satisfy_criteria (c : Criteria) (df : Table) :
  apply_filters c df ⊆ df ∧
  Forall (λ r,
    (neighborhoods c = [] ∨ neighbourhood_cleansed r ∈ neighborhoods c) ∧
    (room_types c = [] ∨ room_type r ∈ room_types c) ∧
    (∃ p, price r = Some p ∧
          Qc_of_Z (min_price c) ≤ p ∧ p ≤ Qc_of_Z (max_price c)) ∧
    (superhost_filter c = false ∨ host_is_superhost r = Some true))
    (apply_filters c df).
Proof.
  split.
  - intros r Hr. by apply elem_of_apply_filters in Hr as [_ ?].
  - apply Forall_forall. intros r Hr.
    apply elem_of_apply_filters in Hr as [Hok _].
    unfold row_ok in Hok. rewrite !andb_True in Hok.
    destruct Hok as [[[Hn Hrt] Hp] Hs].
    repeat split.
    + unfold neighbourhood_ok in Hn.
      destruct (neighborhoods c) eqn:E; [by left|right].
      by apply isin_spec in Hn.
    + unfold room_type_ok in Hrt.
      destruct (room_types c) eqn:E; [by left|right].
      by apply isin_spec in Hrt.
    + by apply price_ok_spec.
    + unfold superhost_ok in Hs.
      destruct (superhost_filter c); [right|by left].
      by apply eq_True_spec.
Qed.

(** C4. Filtering the filtered table again with the same criteria changes
    nothing. *)
Theorem apply_filters_idempotent (c : Criteria) (df : Table) :
  apply_filters c (apply_filters c df) = apply_filters c df.
Proof.
  rewrite !apply_filters_filter.
  apply (list_filter_filter_l (λ r, Is_true (row_ok c r))). done.
Qed.

(** C5. The rows of the filtered table come in the order they have in the
    loaded table: the filtered table is obtained from the loaded one by
    deleting rows. *)
Theorem apply_filters_preserves_order (c : Criteria) (df : Table) :
  apply_filters c df `sublist_of` df.
Proof. rewrite apply_filters_filter. apply sublist_filter. Qed.

Lemma fill_false_cases ns rs lo hi r :
  let c := mkCriteria ns rs lo hi true in
  fill_false r = r ∨ (¬ row_ok c r ∧ ¬ row_ok c (fill_false r)).
Proof.
  intros c. unfold fill_false.
  destruct (host_is_superhost r) eqn:E; [by left|right].
  unfold row_ok, superhost_ok. simpl. rewrite E. simpl.
  rewrite !andb_false_r. split; by intros [].
Qed.

(** C10. With the checkbox ticked, the rows kept are exactly the rows of
    the loaded table that pass the other three predicates and whose
    [host_is_superhost] equals True; a row whose cell is missing is
    dropped, and the outcome is the one obtained after writing False into
    every missing cell. *)
Theorem superhost_missing_counts_as_false
    (ns rs : list (option string)) (lo hi : Z) (df : Table) :
  let c := mkCriteria ns rs lo hi true in
  (∀ r, r ∈ apply_filters c df ↔
        r ∈ df ∧ neighbourhood_ok c r ∧ room_type_ok c r ∧ price_ok c r ∧
        host_is_superhost r = Some true) ∧
  Forall (λ r, host_is_superhost r ≠ None) (apply_filters c df) ∧
  apply_filters c (map fill_false df) = apply_filters c df.
Proof.
  intros c. split_and!.
  - intros r. rewrite elem_of_apply_filters. unfold row_ok, superhost_ok.
    simpl. rewrite !andb_True, eq_True_spec. tauto.
  - apply Forall_forall. intros r Hr.
    apply elem_of_apply_filters in Hr as [Hok _].
    unfold row_ok, superhost_ok in Hok. simpl in Hok.
    rewrite !andb_True, eq_True_spec in Hok.
    destruct Hok as [_ ->]. done.
  - rewrite !apply_filters_filter.
    induction df as [|r df IH]; [done|].
    cbn [map]. rewrite !filter_cons, IH.
    destruct (fill_false_cases ns rs lo hi r) as [->|[Hr Hr']]; [done|].
    fold c in Hr, Hr'. by rewrite !decide_False.
Qed.

(** ** The whole slider range *)

Lemma int_of_Qc_of_Z z : int_of (Qc_of_Z z) = z.
Proof. unfold int_of. simpl. apply Z.quot_1_r. Qed.

Lemma Qc_max_ge_l a b : a ≤ Qc_max a b.
Proof. unfold Qc_max. case_decide; [done|apply Qcle_refl]. Qed.

Lemma Qc_max_ge_r a b : b ≤ Qc_max a b.
Proof.
  unfold Qc_max. case_decide; [apply Qcle_refl|].
  by apply Qclt_le_weak, Qclt_nge.
Qed.

Lemma foldl_Qc_max_ge xs x :
  x ≤ foldl Qc_max x xs ∧ Forall (λ y, y ≤ foldl Qc_max x xs) xs.
Proof.
  revert x. induction xs as [|y xs IH]; intros x; simpl.
  - split; [apply Qcle_refl|constructor].
  - destruct (IH (Qc_max x y)) as [H1 H2]. split_and?.
    + eapply Qcle_trans; [apply Qc_max_ge_l|done].
    + constructor; [|done].
      eapply Qcle_trans; [apply Qc_max_ge_r|done].
Qed.

Lemma foldl_Qc_max_elem xs x : foldl Qc_max x xs ∈ x :: xs.
Proof.
  revert x. induction xs as [|y xs IH]; intros x; simpl; [by left|].
  rewrite !elem_of_cons.
  destruct (proj1 (elem_of_cons _ _ _) (IH (Qc_max x y))) as [->|Hin].
  - unfold Qc_max. case_decide; auto.
  - auto.
Qed.

Lemma elem_of_dropna {A} (col : list (option A)) x :
  x ∈ dropna col ↔ Some x ∈ col.
Proof.
  unfold dropna. rewrite list_elem_of_omap. split.
  - by intros ([y|] & ? & [= <-]).
  - intros ?. by exists (Some x).
Qed.

(** The column maximum is one of the cells and bounds every cell. *)
Lemma col_max_spec col m :
  col_max col = Some m → Some m ∈ col ∧ ∀ p, Some p ∈ col → p ≤ m.
Proof.
  unfold col_max. destruct (dropna col) as [|x xs] eqn:E; [done|].
  intros [= <-]. split.
  - apply elem_of_dropna. rewrite E. apply foldl_Qc_max_elem.
  - intros p Hp. apply elem_of_dropna in Hp. rewrite E in Hp.
    destruct (foldl_Qc_max_ge xs x) as [H1 H2].
    apply elem_of_cons in Hp as [->|Hp]; [done|].
    by eapply Forall_forall in H2.
Qed.

(** With nothing selected and the checkbox unticked, the rows kept are
    those whose price is present and inside the interval. *)
Lemma full_range_keeps_priced_rows (lo hi : Z) (df : Table) :
  Forall (λ r, ∃ p, price r = Some p ∧ Qc_of_Z lo ≤ p ∧ p ≤ Qc_of_Z hi) df →
  apply_filters (mkCriteria [] [] lo hi false) df = df.
Proof.
  intros Hall. rewrite apply_filters_filter. apply filter_all.
  eapply Forall_impl; [exact Hall|]. intros r Hr.
  unfold row_ok. rewrite !andb_True. split_and!; try done.
  by apply price_ok_spec.
Qed.

(** When every price is a non-negative whole number, the upper bound handed
    to the slider is the dearest price itself, and the range from 0 to it
    keeps every row. *)
Lemma full_range_whole_prices (df : Table) :
  df ≠ [] →
  Forall (λ r, ∃ z, price r = Some (Qc_of_Z z) ∧ (0 ≤ z)%Z) df →
  ∃ hi, slider_bounds df = inr (0%Z, hi) ∧
        apply_filters (mkCriteria [] [] 0 hi false) df = df.
Proof.
  intros Hne Hall. unfold slider_bounds.
  destruct (col_max (map price df)) as [m|] eqn:Hmax.
  - destruct (col_max_spec _ _ Hmax) as [Hin Hle].
    apply list_elem_of_fmap in Hin as (r & Hr & Hin).
    eapply Forall_forall in Hall as Hz; [|exact Hin].
    destruct Hz as (z & Hz & _).
    assert (m = Qc_of_Z z) as -> by congruence.
    exists z. rewrite int_of_Qc_of_Z. split; [done|].
    apply full_range_keeps_priced_rows, Forall_forall. intros r' Hr'.
    eapply Forall_forall in Hall as (z' & Hz' & Hpos); [|exact Hr'].
    exists (Qc_of_Z z'). split_and!; [done|by apply (proj1 (Z2Qc_inj_le _ _))|].
    apply Hle. rewrite <-Hz'. by apply list_elem_of_fmap_2.
  - exfalso. destruct df as [|r df]; [done|].
    apply Forall_cons in Hall as [(z & Hz & _) _].
    unfold col_max, dropna in Hmax. simpl in Hmax. rewrite Hz in Hmax.
    simpl in Hmax. done.
Qed.

(** C2. Two listings priced 500 and 750.50: the slider's upper bound is
    [int(750.5)] = 750, so its whole range, with nothing else selected,
    keeps the first listing only and not the full table. *)
Theorem full_range_drops_fractional_maximum :
  let df := [listing_ballard; listing_fremont] in
  slider_bounds df = inr (0%Z, 750%Z) ∧
  apply_filters whole_range_750 df = [listing_ballard] ∧
  apply_filters whole_range_750 df ≠ df.
Proof.
  split_and!.
  - by apply (bool_decide_unpack _); vm_compute.
  - by apply (bool_decide_unpack _); vm_compute.
  - by apply (bool_decide_unpack _); vm_compute.
Qed.

(** ** Reading a list through an indexer *)

Section take_at.
Context {A : Type}.
Implicit Types (a : list A) (p : list nat).

Lemma take_at_app p1 p2 a :
  take_at (p1 ++ p2) a = take_at p1 a ++ take_at p2 a.
Proof. apply omap_app. Qed.

Lemma take_at_reverse p a : take_at (reverse p) a = reverse (take_at p a).
Proof.
  induction p as [|i p IH]; [done|].
  rewrite reverse_cons, take_at_app, IH. unfold take_at at 2 3. simpl.
  destruct (a !! i); simpl; [by rewrite reverse_cons|].
  by rewrite app_nil_r.
Qed.

Lemma take_at_seq_app pre a :
  take_at (seq (length pre) (length a)) (pre ++ a) = a.
Proof.
  revert pre. induction a as [|x a IH]; intros pre; [done|].
  simpl. unfold take_at. simpl.
  rewrite lookup_app_r, Nat.sub_diag by done. simpl. f_equal.
  specialize (IH (pre ++ [x])).
  rewrite length_app, <-(assoc_L (++)) in IH. simpl in IH.
  by rewrite Nat.add_1_r in IH.
Qed.

Lemma take_at_seq a : take_at (seq 0 (length a)) a = a.
Proof. apply (take_at_seq_app []). Qed.

(** An indexer that lists every position once rearranges the list. *)
Lemma take_at_Permutation p a : p ≡ₚ seq 0 (length a) → take_at p a ≡ₚ a.
Proof.
  intros Hp. transitivity (take_at (seq 0 (length a)) a).
  - unfold take_at. by rewrite Hp.
  - by rewrite take_at_seq.
Qed.
End take_at.

Lemma take_at_fmap {A B} (f : A → B) p (a : list A) :
  f <$> take_at p a = take_at p (f <$> a).
Proof.
  induction p as [|i p IH]; [done|].
  unfold take_at in *. csimpl. rewrite list_lookup_fmap.
  destruct (a !! i); csimpl; by rewrite IH.
Qed.

(** ** Sorting a Series *)

Lemma non_nan_from_lookup k items :
  Forall (λ p, ∃ j, p.1 = (k + j)%nat ∧ items !! j = Some (Some p.2))
         (non_nan_from k items).
Proof.
  revert k. induction items as [|[x|] items IH]; intros k; simpl.
  - constructor.
  - constructor.
    + exists 0%nat. by rewrite Nat.add_0_r.
    + eapply Forall_impl; [apply (IH (S k))|].
      intros p (j & -> & Hj). exists (S j). split; [lia|done].
  - eapply Forall_impl; [apply (IH (S k))|].
    intros p (j & -> & Hj). exists (S j). split; [lia|done].
Qed.

Lemma nan_from_lookup k items :
  Forall (λ i, ∃ j, i = (k + j)%nat ∧ items !! j = Some None) (nan_from k items).
Proof.
  revert k. induction items as [|[x|] items IH]; intros k; simpl.
  - constructor.
  - eapply Forall_impl; [apply (IH (S k))|].
    intros i (j & -> & Hj). exists (S j). split; [lia|done].
  - constructor.
    + exists 0%nat. by rewrite Nat.add_0_r.
    + eapply Forall_impl; [apply (IH (S k))|].
      intros i (j & -> & Hj). exists (S j). split; [lia|done].
Qed.

(** Between them the two lists mention every position once. *)
Lemma non_nan_nan_Permutation k items :
  (non_nan_from k items).*1 ++ nan_from k items ≡ₚ seq k (length items).
Proof.
  revert k. induction items as [|[x|] items IH]; intros k; simpl.
  - done.
  - by rewrite IH.
  - by rewrite <-Permutation_middle, IH.
Qed.

Lemma take_at_non_nan (items : list (option Qc)) (L : list (nat * Qc)) :
  Forall (λ p, items !! p.1 = Some (Some p.2)) L →
  take_at (L.*1) items = Some <$> L.*2.
Proof.
  induction 1 as [|p L Hp _ IH]; [done|].
  unfold take_at in *. csimpl. rewrite Hp. csimpl. by rewrite IH.
Qed.

Lemma take_at_nan (items : list (option Qc)) (B : list nat) :
  Forall (λ i, items !! i = Some None) B →
  take_at B items = replicate (length B) None.
Proof.
  induction 1 as [|i B Hi _ IH]; [done|].
  unfold take_at in *. csimpl. rewrite Hi. csimpl. by rewrite IH.
Qed.

Section sort_values.
Context `{ArgSort}.

(** What [sort_values] returns: the entries of the Series rearranged so
    that the numbers come first, ascending or descending as asked, and
    the NaN entries last. *)
Lemma sort_values_spec (ascending : bool) (s : Series) :
  ∃ vs n,
    (sort_values ascending s).*2 = (Some <$> vs) ++ replicate n None ∧
    Sorted (if ascending then Qcle else flip Qcle) vs ∧
    sort_values ascending s ≡ₚ s.
Proof.
  unfold sort_values, nargsort. cbv zeta.
  set (items := s.*2).
  set (good := non_nan_from 0 items).
  set (g := if ascending then good else reverse good).
  set (p := argsort (g.*2)).
  set (G := take_at p g).
  assert (g ≡ₚ good) as Hg.
  { unfold g. destruct ascending; [done|apply reverse_Permutation]. }
  assert (G ≡ₚ g) as HG.
  { apply take_at_Permutation. unfold p.
    rewrite argsort_perm. by rewrite length_fmap. }
  assert (Sorted Qcle (G.*2)) as Hsorted.
  { unfold G. rewrite take_at_fmap. apply argsort_sorted. }
  rewrite <-(take_at_fmap fst p g). fold G.
  set (Gf := if ascending then G else reverse G).
  assert ((if ascending then G.*1 else reverse (G.*1)) = Gf.*1) as ->.
  { unfold Gf. destruct ascending; [done|by rewrite fmap_reverse]. }
  assert (Gf ≡ₚ good) as HGf.
  { unfold Gf. destruct ascending; rewrite ?reverse_Permutation;
      by rewrite HG, Hg. }
  assert (Forall (λ q, items !! q.1 = Some (Some q.2)) Gf) as Hgood.
  { rewrite HGf. eapply Forall_impl; [apply non_nan_from_lookup|].
    by intros q (j & -> & ?). }
  assert (Forall (λ i, items !! i = Some None) (nan_from 0 items)) as Hbad.
  { eapply Forall_impl; [apply nan_from_lookup|].
    by intros q (j & -> & ?). }
  exists (Gf.*2), (length (nan_from 0 items)). split_and!.
  - rewrite take_at_fmap. fold items.
    by rewrite take_at_app, take_at_non_nan, take_at_nan.
  - unfold Gf. destruct ascending; [done|].
    rewrite fmap_reverse. by apply Sorted_reverse.
  - apply take_at_Permutation.
    rewrite HGf. unfold good. rewrite non_nan_nan_Permutation.
    unfold items. by rewrite length_fmap.
Qed.
End sort_values.

Lemma StronglySorted_nan_last (R : relation Qc) `{!Transitive R} vs n :
  Sorted R vs →
  StronglySorted (nan_last R) ((Some <$> vs) ++ replicate n None).
Proof.
  intros Hvs. apply Sorted_StronglySorted in Hvs; [|done].
  induction Hvs as [|x vs Hs IH Hx]; csimpl.
  - induction n as [|n IHn]; simpl; constructor; [done|].
    apply Forall_forall. by intros [y|] Hy%elem_of_replicate_inv.
  - constructor; [done|]. apply Forall_app. split.
    + apply Forall_fmap. eapply Forall_impl; [exact Hx|]. done.
    + apply Forall_forall. by intros y ->%elem_of_replicate_inv.
Qed.

Lemma StronglySorted_of_fmap {A B} (f : A → B) (R : relation B) (l : list A) :
  StronglySorted R (f <$> l) → StronglySorted (λ a b, R (f a) (f b)) l.
Proof.
  induction l as [|x l IH]; csimpl; [constructor|].
  intros [Hl Hx]%StronglySorted_inv. constructor; [by apply IH|].
  exact (proj1 (Forall_fmap _ _ _) Hx).
Qed.

Lemma StronglySorted_take {A} (R : relation A) n (l : list A) :
  StronglySorted R l → StronglySorted R (take n l).
Proof.
  intros Hl. revert n. induction Hl as [|x l Hl IH Hx]; intros [|n]; simpl;
    try constructor; [done|].
  eapply Forall_forall. intros y Hy.
  apply elem_of_take in Hy as (i & Hi & _).
  eapply Forall_forall in Hx; [done|]. by eapply list_elem_of_lookup_2.
Qed.

Section sorted_charts.
Context `{ArgSort}.

Lemma sort_values_sorted (ascending : bool) (s : Series) :
  StronglySorted
    (λ a b, nan_last (if ascending then Qcle else flip Qcle) a.2 b.2)
    (sort_values ascending s).
Proof.
  destruct (sort_values_spec ascending s) as (vs & n & Hvals & Hvs & _).
  apply StronglySorted_of_fmap. rewrite Hvals.
  apply StronglySorted_nan_last; [|done].
  destruct ascending; [apply _|].
  intros x y z ??. unfold flip in *. by etrans.
Qed.
End sorted_charts.

(** ** Sorts that meet the argsort contract *)

Global Instance by_value_total : Total by_value.
Proof. intros p q. unfold by_value. apply (total Qcle). Qed.

Global Instance by_value_then_later_total : Total by_value_then_later.
Proof.
  intros [i x] [j y]. unfold by_value_then_later. simpl.
  destruct (Qclt_le_dec x y) as [?|Hyx]; [by left; left|].
  destruct (Qclt_le_dec y x) as [?|Hxy]; [by right; left|].
  assert (x = y) as -> by (by apply Qcle_antisym).
  destruct (Nat.le_ge_cases i j); [right|left]; by right.
Qed.

Section argsort_with.
Context (R : relation (nat * Qc)) `{!RelDecision R, !Total R}.
Hypothesis R_by_value : ∀ p q, R p q → p.2 ≤ q.2.

Lemma argsort_with_perm a : argsort_with R a ≡ₚ seq 0 (length a).
Proof.
  unfold argsort_with. rewrite merge_sort_Permutation, fmap_imap.
  etrans; [|by rewrite <-(list_fmap_id (seq 0 (length a)))].
  by rewrite <-(imap_seq_0 a id).
Qed.

Lemma take_at_positions (a : list Qc) (L : list (nat * Qc)) :
  Forall (λ p, a !! p.1 = Some p.2) L → take_at (L.*1) a = L.*2.
Proof.
  induction 1 as [|p L Hp _ IH]; [done|].
  unfold take_at in *. csimpl. rewrite Hp. csimpl. by rewrite IH.
Qed.

Lemma argsort_with_sorted a : Sorted Qcle (take_at (argsort_with R a) a).
Proof.
  unfold argsort_with. rewrite take_at_positions.
  - eapply Sorted_fmap; [|by apply Sorted_merge_sort]. apply R_by_value.
  - rewrite merge_sort_Permutation. apply Forall_forall.
    intros [i x] (j & Hj)%list_elem_of_lookup_1.
    apply list_lookup_imap_Some in Hj as (y & Hy & [= -> ->]). done.
Qed.
End argsort_with.

(** A merge sort on the values alone. *)
Definition merging_argsort : ArgSort :=
  {| argsort := argsort_with by_value;
     argsort_perm := argsort_with_perm by_value;
     argsort_sorted := argsort_with_sorted by_value (λ _ _ H, H) |}.

Lemma by_value_then_later_by_value p q : by_value_then_later p q → p.2 ≤ q.2.
Proof.
  intros [?|[-> _]]; [by apply Qclt_le_weak|apply Qcle_refl].
Qed.

(** Equal values come out with the later position first. *)
Definition swapping_argsort : ArgSort :=
  {| argsort := argsort_with by_value_then_later;
     argsort_perm := argsort_with_perm by_value_then_later;
     argsort_sorted :=
       argsort_with_sorted by_value_then_later by_value_then_later_by_value |}.

(** ** Grouped means *)

Lemma elem_of_group_keys keys k : k ∈ group_keys keys ↔ Some k ∈ keys.
Proof.
  unfold group_keys.
  by rewrite merge_sort_Permutation, elem_of_remove_dups, elem_of_dropna.
Qed.

Lemma mean_None col : mean col = None ↔ dropna col = [].
Proof. unfold mean. by destruct (dropna col). Qed.

(** The mean of a column is NaN exactly when no cell holds a number. *)
Lemma mean_None_iff col : mean col = None ↔ Forall (λ cell, cell = None) col.
Proof.
  rewrite mean_None. induction col as [|[x|] col IH]; csimpl.
  - split; [constructor|done].
  - split; [done|]. by intros [[=] _]%Forall_cons.
  - unfold dropna in IH. rewrite IH, Forall_cons. tauto.
Qed.

(** Every group has at least one row, and when the aggregated column has a
    number in every row the group means are all numbers. *)
Lemma groupby_mean_present key col df :
  Forall (λ r, is_Some (col r)) df →
  Forall (λ kv, is_Some kv.2) (groupby_mean key col df).
Proof.
  intros Hcol. unfold groupby_mean. apply Forall_fmap, Forall_forall.
  intros k Hk. simpl.
  apply elem_of_group_keys, list_elem_of_fmap in Hk as (r & Hkey & Hr).
  destruct (mean _) eqn:Hmean; [done|exfalso].
  apply mean_None_iff in Hmean.
  eapply Forall_forall in Hcol as [x Hx]; [|exact Hr].
  assert (col r ∈ map col (filter (λ r, key r = Some k) df)) as Hin.
  { apply list_elem_of_fmap_2, (list_elem_of_filter (λ r, key r = Some k)).
    done. }
  eapply Forall_forall in Hmean; [|exact Hin]. congruence.
Qed.

Lemma filtered_price_present c df :
  Forall (λ r, is_Some (price r)) (apply_filters c df).
Proof.
  apply Forall_forall. intros r [Hok _]%elem_of_apply_filters.
  unfold row_ok in Hok. rewrite !andb_True in Hok.
  destruct Hok as [[_ Hp] _]. apply price_ok_spec in Hp as (p & -> & _). done.
Qed.

Lemma StronglySorted_present (R : relation Qc) (s : Series) :
  Forall (λ kv, is_Some kv.2) s →
  StronglySorted (λ a b, nan_last R a.2 b.2) s →
  StronglySorted (λ a b, ∃ x y, a.2 = Some x ∧ b.2 = Some y ∧ R x y) s.
Proof.
  intros Hs Hsorted. induction Hsorted as [|a s Hsorted IH Ha]; [constructor|].
  apply Forall_cons in Hs as [[x Hx] Hs]. constructor; [by apply IH|].
  apply Forall_forall. intros b Hb.
  eapply Forall_forall in Ha; [|exact Hb].
  eapply Forall_forall in Hs as [y Hy]; [|exact Hb].
  rewrite Hx, Hy in Ha. by exists x, y.
Qed.

(** ** The sorted charts *)

(** C3. Line 85 returns the first ten entries of the group means sorted
    by descending mean: their number is the smaller of ten and the number
    of groups; the entries kept, followed by the entries cut off, are a
    rearrangement of the groups in which the means never increase and
    groups without any price come last; and on a filtered table, where
    every price is present, each mean is a number no larger than the ones
    before it. The order of groups with equal means is left to the sort. *)
Theorem top_neigh_top10_descending `{ArgSort} (c : Criteria) (df : Table) :
  let groups := groupby_mean neighbourhood_cleansed price df in
  length (top_neigh df) = 10 `min` length groups ∧
  (length (top_neigh df) ≤ 10)%nat ∧
  (∃ rest,
     top_neigh df ++ rest ≡ₚ groups ∧
     StronglySorted (λ a b, nan_last (flip Qcle) a.2 b.2)
       (top_neigh df ++ rest)) ∧
  StronglySorted (λ a b, ∃ x y, a.2 = Some x ∧ b.2 = Some y ∧ y ≤ x)
    (top_neigh (apply_filters c df)).
Proof.
  intros groups. unfold top_neigh, head. fold groups.
  destruct (sort_values_spec false groups) as (vs & n & _ & _ & Hperm).
  split_and!.
  - by rewrite length_take, Hperm.
  - rewrite length_take. lia.
  - exists (drop 10 (sort_values false groups)). rewrite take_drop.
    split; [done|]. apply (sort_values_sorted false).
  - apply StronglySorted_present.
    + apply Forall_take.
      destruct (sort_values_spec false
        (groupby_mean neighbourhood_cleansed price (apply_filters c df)))
        as (? & ? & _ & _ & ->).
      apply groupby_mean_present, filtered_price_present.
    + apply StronglySorted_take, (sort_values_sorted false).
Qed.

(** C3, at a concrete table, sort and criteria. *)
Lemma top_neigh_top10_descending_witness :
  let groups := groupby_mean neighbourhood_cleansed price tied_listings in
  length (@top_neigh merging_argsort tied_listings) = 10 `min` length groups ∧
  (length (@top_neigh merging_argsort tied_listings) ≤ 10)%nat ∧
  (∃ rest,
     @top_neigh merging_argsort tied_listings ++ rest ≡ₚ groups ∧
     StronglySorted (λ a b, nan_last (flip Qcle) a.2 b.2)
       (@top_neigh merging_argsort tied_listings ++ rest)) ∧
  StronglySorted (λ a b, ∃ x y, a.2 = Some x ∧ b.2 = Some y ∧ y ≤ x)
    (@top_neigh merging_argsort (apply_filters whole_range_750 tied_listings)).
Proof.
  exact (@top_neigh_top10_descending merging_argsort whole_range_750 tied_listings).
Defined.

(** C3 as stated fails on [twenty_neighbourhoods]: ten neighbourhoods tie
    at a mean price of 200, and a sort that meets the argsort contract
    without being stable lists them in another order than the grouping
    has them: here Ravenna, the last of them in the grouping, comes
    first. *)
Lemma top_neigh_ties_not_in_group_order :
  ¬ ties_keep_group_order
      (groupby_mean neighbourhood_cleansed price twenty_neighbourhoods)
      (@top_neigh swapping_argsort twenty_neighbourhoods).
Proof.
  intros Hties.
  destruct (Hties 0%nat 1%nat "Ravenna" "Montlake" (Some (Qc_of_Z 200)))
    as (i & j & Hij & Hi & Hj).
  - lia.
  - by apply (bool_decide_unpack _); vm_compute.
  - by apply (bool_decide_unpack _); vm_compute.
  - assert (NoDup (groupby_mean neighbourhood_cleansed price
                     twenty_neighbourhoods)) as Hnodup
      by (by apply (bool_decide_unpack _); vm_compute).
    assert (groupby_mean neighbourhood_cleansed price twenty_neighbourhoods
              !! 18%nat = Some ("Ravenna", Some (Qc_of_Z 200))) as Hi'
      by (by apply (bool_decide_unpack _); vm_compute).
    assert (groupby_mean neighbourhood_cleansed price twenty_neighbourhoods
              !! 16%nat = Some ("Montlake", Some (Qc_of_Z 200))) as Hj'
      by (by apply (bool_decide_unpack _); vm_compute).
    pose proof (NoDup_lookup _ _ _ _ Hnodup Hi Hi').
    pose proof (NoDup_lookup _ _ _ _ Hnodup Hj Hj').
    lia.
Qed.

(** C8. Line 119 returns the room types with their mean reviews per
    month, rearranged so that the means ascend; room types without any
    review figure come last. *)
Theorem avg_reviews_ascending `{ArgSort} (df : Table) :
  avg_reviews df ≡ₚ groupby_mean room_type reviews_per_month df ∧
  StronglySorted (λ a b, nan_last Qcle a.2 b.2) (avg_reviews df).
Proof.
  unfold avg_reviews. split.
  - by destruct (sort_values_spec true
      (groupby_mean room_type reviews_per_month df)) as (? & ? & _ & _ & ?).
  - apply (sort_values_sorted true).
Qed.

(** ** Running the script *)

Section wp_rules.
Context {A B : Type}.

Lemma wp_ret (a : A) s (Q : A → Session → Prop) : Q a s → wp (mret a) s Q.
Proof. intros HQ. by exists a, s. Qed.

Lemma wp_bind (m : M A) (f : A → M B) s Q' (Q : B → Session → Prop) :
  wp m s Q' → (∀ a s', Q' a s' → wp (f a) s' Q) → wp (m ≫= f) s Q.
Proof.
  intros (a & s' & Hm & HQ') Hf.
  destruct (Hf a s' HQ') as (b & s'' & Hfa & HQ).
  exists b, s''. split; [|done].
  unfold mbind, M_bind. by rewrite Hm.
Qed.

End wp_rules.

Lemma fresh_initial_session : fresh initial_session.
Proof. intros r _. apply lookup_empty. Qed.

Lemma extends_refl s : extends s s.
Proof. by intros r t. Qed.

Lemma extends_trans s1 s2 s3 : extends s1 s2 → extends s2 s3 → extends s1 s3.
Proof. intros H12 H23 r t Hr. by apply H23, H12. Qed.

(** Creating an object disturbs no object that is already there. *)
Lemma wp_new_frame t s : fresh s → wp (new_frame t) s (produces s t).
Proof.
  intros Hfresh. eexists _, _. split; [done|].
  unfold produces, fresh, extends. simpl. split_and!.
  - intros r Hr. rewrite lookup_insert_ne by lia. apply Hfresh. lia.
  - intros r t' Hr. rewrite lookup_insert_ne; [done|].
    intros <-. rewrite Hfresh in Hr; [done|lia].
  - apply lookup_insert_eq.
Qed.

Lemma wp_get_frame r t s :
  frames s !! r = Some t → wp (get_frame r) s (λ t' s', t' = t ∧ s' = s).
Proof.
  intros Hr. exists t, s. split; [|done]. unfold get_frame. by rewrite Hr.
Qed.

Lemma wp_copy r t s :
  fresh s → frames s !! r = Some t → wp (copy r) s (produces s t).
Proof.
  intros Hfresh Hr. unfold copy.
  eapply wp_bind; [by eapply wp_get_frame|].
  intros t' s' [-> ->]. by apply wp_new_frame.
Qed.

Lemma wp_mask_of r (f : Row → bool) t s :
  frames s !! r = Some t →
  wp (mask_of r f) s (λ mask s', mask = map f t ∧ s' = s).
Proof.
  intros Hr. unfold mask_of. eapply wp_bind; [by eapply wp_get_frame|].
  intros t' s' [-> ->]. by apply wp_ret.
Qed.

Lemma wp_getitem r mask t s :
  fresh s → frames s !! r = Some t →
  wp (getitem r mask) s (produces s (boolean_index t mask)).
Proof.
  intros Hfresh Hr. unfold getitem.
  eapply wp_bind; [by eapply wp_get_frame|].
  intros t' s' [-> ->]. by apply wp_new_frame.
Qed.

(** Building a mask from a frame and indexing the frame with it keeps the
    rows of the frame that pass the test, as a new object. *)
Lemma wp_select r (f : Row → bool) t s :
  fresh s → frames s !! r = Some t →
  wp (mask ← mask_of r f; getitem r mask) s
     (produces s (boolean_index t (map f t))).
Proof.
  intros Hfresh Hr.
  eapply wp_bind; [by eapply wp_mask_of|].
  intros mask s' [-> ->]. by apply wp_getitem.
Qed.

Lemma wp_lift_eq {A} (x : exn + A) (a : A) s :
  x = inr a → wp (lift x) s (λ a' s', a' = a ∧ s' = s).
Proof. intros ->. by exists a, s. Qed.

Lemma wp_load_data t s :
  fresh s →
  wp (load_data t) s (λ r s', r = next_ref s ∧ produces s t r s').
Proof.
  intros Hfresh. destruct (wp_new_frame t s Hfresh) as (r & s' & Hrun & Hpost).
  exists r, s'. split_and!; [done| |done].
  unfold load_data, new_frame in Hrun. by simplify_eq.
Qed.

Lemma produces_here r t s : fresh s → frames s !! r = Some t → produces s t r s.
Proof. intros ??. split_and!; [done|apply extends_refl|done]. Qed.

Section filter_steps.
Context (ui : Criteria) (r : nat) (t : Table) (s : Session).
Hypothesis s_fresh : fresh s.
Hypothesis r_holds_t : frames s !! r = Some t.

Lemma wp_filter_neighborhoods :
  wp (match neighborhoods ui with
      | [] => mret r
      | _ :: _ =>
          mask ← mask_of r
                   (λ x, isin (neighborhoods ui) (neighbourhood_cleansed x));
          getitem r mask
      end) s (produces s (filter_neighborhoods ui t)).
Proof.
  unfold filter_neighborhoods. destruct (neighborhoods ui).
  - by apply wp_ret, produces_here.
  - by apply wp_select.
Qed.

Lemma wp_filter_room_types :
  wp (match room_types ui with
      | [] => mret r
      | _ :: _ =>
          mask ← mask_of r (λ x, isin (room_types ui) (room_type x));
          getitem r mask
      end) s (produces s (filter_room_types ui t)).
Proof.
  unfold filter_room_types. destruct (room_types ui).
  - by apply wp_ret, produces_here.
  - by apply wp_select.
Qed.

Lemma wp_filter_superhost :
  wp (if superhost_filter ui
      then mask ← mask_of r (λ x, eq_True (host_is_superhost x));
           getitem r mask
      else mret r) s (produces s (filter_superhost ui t)).
Proof.
  unfold filter_superhost. destruct (superhost_filter ui).
  - by apply wp_select.
  - by apply wp_ret, produces_here.
Qed.
End filter_steps.

(** The filter of lines 58-65 leaves its result in an object of its own. *)
Lemma wp_select_rows (ui : Criteria) (df : nat) (t : Table) (s : Session) :
  fresh s → frames s !! df = Some t →
  wp (select_rows ui df) s (produces s (apply_filters ui t)).
Proof.
  intros Hfresh Hdf. unfold select_rows.
  eapply wp_bind; [by eapply wp_copy|]. intros r1 s1 (Hf1 & He1 & Hr1).
  eapply wp_bind; [by eapply wp_filter_neighborhoods|].
  intros r2 s2 (Hf2 & He2 & Hr2).
  eapply wp_bind; [by eapply wp_filter_room_types|].
  intros r3 s3 (Hf3 & He3 & Hr3).
  eapply wp_bind; [by eapply wp_mask_of|]. intros ? ? [-> ->].
  eapply wp_bind; [by eapply wp_getitem|].
  fold (filter_price ui (filter_room_types ui (filter_neighborhoods ui t))).
  intros r4 s4 (Hf4 & He4 & Hr4).
  destruct (wp_filter_superhost ui r4 _ s4 Hf4 Hr4)
    as (r5 & s5 & Hrun & Hf5 & He5 & Hr5).
  exists r5, s5. split; [done|]. split_and!; [done| |done].
  repeat (eapply extends_trans; [eassumption|]). apply extends_refl.
Qed.

Lemma ends_bind {A B} (m : M A) (f : A → M B) s Q'
    (Q : exn + B * Session → Prop) :
  wp m s Q' → (∀ a s', Q' a s' → ends (f a) s' Q) → ends (m ≫= f) s Q.
Proof.
  intros (a & s' & Hm & HQ') Hf. unfold ends, mbind, M_bind.
  rewrite Hm. by apply Hf.
Qed.

(** One run of the script, when the three widgets of the sidebar do not
    raise: the object bound to [df] still holds the loaded table, like
    every object that existed before the run, and the run ends the way
    drawing the charts from the filtered table ends. *)
Lemma render_run `{ArgSort} (cleaned_listings : Table) (ui : Criteria)
    (s : Session) nb rt bounds :
  fresh s →
  sorted_unique (map neighbourhood_cleansed cleaned_listings) = inr nb →
  sorted_unique (map room_type cleaned_listings) = inr rt →
  price_range_slider cleaned_listings = inr bounds →
  ∃ s', fresh s' ∧ extends s s' ∧
        frames s' !! next_ref s = Some cleaned_listings ∧
        render cleaned_listings ui s
        = match draw nb rt bounds (apply_filters ui cleaned_listings) with
          | inl e => inl e
          | inr page => inr ((next_ref s, page), s')
          end.
Proof.
  intros Hfresh Hnb Hrt Hbounds.
  change (ends (render cleaned_listings ui) s (λ o,
    ∃ s', fresh s' ∧ extends s s' ∧
          frames s' !! next_ref s = Some cleaned_listings ∧
          o = match draw nb rt bounds (apply_filters ui cleaned_listings) with
              | inl e => inl e
              | inr page => inr ((next_ref s, page), s')
              end)).
  unfold render.
  eapply ends_bind; [by apply wp_load_data|].
  intros df s0 (-> & Hf0 & He0 & Hdf).
  eapply ends_bind; [by eapply wp_get_frame|]. intros ? ? [-> ->].
  eapply ends_bind; [by eapply wp_lift_eq|]. intros ? ? [-> ->].
  eapply ends_bind; [by eapply wp_lift_eq|]. intros ? ? [-> ->].
  eapply ends_bind; [by eapply wp_lift_eq|]. intros ? ? [-> ->].
  eapply ends_bind; [by eapply wp_select_rows|].
  intros r1 s1 (Hf1 & He1 & Hr1).
  eapply ends_bind; [by eapply wp_get_frame|]. intros ? ? [-> ->].
  unfold ends. exists s1. split_and!; [done| |by apply He1|].
  - by eapply extends_trans.
  - unfold mbind, M_bind, lift.
    by destruct (draw nb rt bounds (apply_filters ui cleaned_listings)).
Qed.

(** If one of the widgets of the sidebar raises, the run raises. *)
Lemma render_raises `{ArgSort} (cleaned_listings : Table) (ui : Criteria)
    (s : Session) :
  (∃ e, sorted_unique (map neighbourhood_cleansed cleaned_listings) = inl e) ∨
  (∃ e, sorted_unique (map room_type cleaned_listings) = inl e) ∨
  (∃ e, price_range_slider cleaned_listings = inl e) →
  ∃ e, render cleaned_listings ui s = inl e.
Proof.
  intros Hraise. unfold render, load_data, new_frame, get_frame.
  unfold mbind, M_bind. cbn [frames]. rewrite lookup_insert_eq.
  unfold lift.
  destruct (sorted_unique (map neighbourhood_cleansed cleaned_listings))
    as [e1|nb]; [by eexists|].
  destruct (sorted_unique (map room_type cleaned_listings))
    as [e2|rt]; [by eexists|].
  destruct (price_range_slider cleaned_listings) as [e3|bounds]; [by eexists|].
  by destruct Hraise as [[? ?]|[[? ?]|[? ?]]].
Qed.

(** C9. A run of the script that reaches the end leaves the object bound to
    [df] holding the loaded table, and leaves every object that existed
    before the run as it was: the filter works on objects of its own, and
    no step writes to an existing object. *)
Theorem render_leaves_loaded_table `{ArgSort} (cleaned_listings : Table)
    (ui : Criteria) (s s' : Session) (df : nat) (page : Dashboard) :
  fresh s →
  render cleaned_listings ui s = inr ((df, page), s') →
  df = next_ref s ∧
  frames s' !! df = Some cleaned_listings ∧
  extends s s'.
Proof.
  intros Hfresh Hrun.
  destruct (sorted_unique (map neighbourhood_cleansed cleaned_listings))
    as [e|nb] eqn:Hnb.
  { destruct (render_raises cleaned_listings ui s) as [e' He'];
      [left; by eexists|congruence]. }
  destruct (sorted_unique (map room_type cleaned_listings)) as [e|rt] eqn:Hrt.
  { destruct (render_raises cleaned_listings ui s) as [e' He'];
      [right; left; by eexists|congruence]. }
  destruct (price_range_slider cleaned_listings) as [e|bounds] eqn:Hbounds.
  { destruct (render_raises cleaned_listings ui s) as [e' He'];
      [right; right; by eexists|congruence]. }
  destruct (render_run cleaned_listings ui s nb rt bounds)
    as (s'' & _ & Hext & Hdf & Hrun'); try done.
  rewrite Hrun in Hrun'.
  destruct (draw nb rt bounds (apply_filters ui cleaned_listings));
    by simplify_eq.
Qed.

(** C9, on a run over the sample table from a session without objects. *)
Lemma render_leaves_loaded_table_witness :
  ∃ df page s',
    @render merging_argsort tied_listings whole_range_750 initial_session
      = inr ((df, page), s') ∧
    df = next_ref initial_session ∧
    frames s' !! df = Some tied_listings ∧
    extends initial_session s'.
Proof.
  destruct (@render merging_argsort tied_listings whole_range_750
              initial_session) as [e|[[df page] s']] eqn:Hrun.
  - exfalso. vm_compute in Hrun. discriminate Hrun.
  - exists df, page, s'. split; [reflexivity|].
    exact (@render_leaves_loaded_table merging_argsort tied_listings
             whole_range_750 initial_session s' df page
             fresh_initial_session Hrun).
Defined.

(** ** An empty result *)







(** ** The CSV export, read back *)

(** *** The tokenizer *)

Lemma not_needs_quoting f :
  needs_quoting f = false → Forall kept f → Forall bare f.
Proof.
  unfold needs_quoting. intros Hq%bool_decide_eq_false Hk.
  apply Forall_forall. intros c Hc. split.
  - by eapply Forall_forall in Hk.
  - intros Hs. apply Hq, Exists_exists. by exists c.
Qed.

Lemma reverse_cons_app {A} (c : A) (f field : list A) :
  reverse (c :: f) ++ field = reverse f ++ c :: field.
Proof. by rewrite reverse_cons, <-app_assoc. Qed.

(** Decide the tests on characters that are known. *)
Ltac known_characters :=
  repeat match goal with
  | |- context [bool_decide ?P] =>
      first [ rewrite (bool_decide_eq_true_2 P) by reflexivity
            | rewrite (bool_decide_eq_false_2 P)
                by (clear; unfold CR, NUL, LF, COMMA, QUOTE;
                    intros ?; intuition discriminate) ]
  end.

Lemma tokenize_in_field f field record records d rest :
  Forall bare f → d = COMMA ∨ d = LF →
  tokenize IN_FIELD field record records (f ++ d :: rest)
  = if bool_decide (d = LF)
    then tokenize START_RECORD [] []
           (reverse (reverse (reverse f ++ field) :: record) :: records) rest
    else tokenize START_FIELD []
           (reverse (reverse f ++ field) :: record) records rest.
Proof.
  intros Hf Hd. revert field. induction Hf as [|c f [[Hcr Hnul] Hc] _ IH];
    intros field.
  - destruct Hd as [-> | ->]; done.
  - cbn [app tokenize].
    rewrite bool_decide_eq_false_2 by tauto.
    rewrite (bool_decide_eq_false_2 (c = LF)) by tauto.
    rewrite (bool_decide_eq_false_2 (c = COMMA)) by tauto.
    rewrite (bool_decide_eq_false_2 (c = QUOTE)) by tauto.
    rewrite IH. by rewrite reverse_cons_app.
Qed.

Lemma tokenize_whitespace_line f field record records rest :
  Forall bare f →
  tokenize WHITESPACE_LINE field record records (f ++ COMMA :: rest)
  = tokenize START_FIELD [] (reverse (reverse f ++ field) :: record) records rest.
Proof.
  intros Hf. revert field. induction Hf as [|c f [[Hcr Hnul] Hc] Hf IH];
    intros field.
  - done.
  - cbn [app tokenize].
    rewrite bool_decide_eq_false_2 by tauto.
    rewrite (bool_decide_eq_false_2 (c = LF)) by tauto.
    rewrite (bool_decide_eq_false_2 (c = COMMA)) by tauto.
    rewrite (bool_decide_eq_false_2 (c = QUOTE)) by tauto.
    destruct (is_whitespace c).
    + rewrite IH. by rewrite reverse_cons_app.
    + rewrite tokenize_in_field by (done || by left).
      rewrite bool_decide_eq_false_2 by done.
      by rewrite reverse_cons_app.
Qed.

Lemma tokenize_in_quoted_field f field record records d rest :
  Forall kept f → d = COMMA ∨ d = LF →
  tokenize IN_QUOTED_FIELD field record records
    (double_quotes f ++ QUOTE :: d :: rest)
  = if bool_decide (d = LF)
    then tokenize START_RECORD [] []
           (reverse (reverse (reverse f ++ field) :: record) :: records) rest
    else tokenize START_FIELD []
           (reverse (reverse f ++ field) :: record) records rest.
Proof.
  intros Hf Hd. revert field. induction Hf as [|c f [Hcr Hnul] _ IH];
    intros field.
  - cbn. destruct Hd as [-> | ->]; done.
  - unfold double_quotes. rewrite bind_cons. fold (double_quotes f).
    destruct (decide (c = QUOTE)) as [->|Hq].
    + rewrite bool_decide_eq_true_2 by done.
      cbn [app tokenize]. known_characters.
      cbn [tokenize]. known_characters.
      rewrite IH. by rewrite reverse_cons_app.
    + rewrite (bool_decide_eq_false_2 (c = QUOTE)) by done.
      cbn [app tokenize].
      rewrite bool_decide_eq_false_2 by tauto.
      rewrite (bool_decide_eq_false_2 (c = QUOTE)) by done.
      rewrite IH. by rewrite reverse_cons_app.
Qed.

(** A written field, read from the start of a field. *)
Lemma tokenize_start_field f record records d rest :
  Forall kept f → d = COMMA ∨ d = LF →
  tokenize START_FIELD [] record records (write_field f ++ d :: rest)
  = if bool_decide (d = LF)
    then tokenize START_RECORD [] [] (reverse (f :: record) :: records) rest
    else tokenize START_FIELD [] (f :: record) records rest.
Proof.
  intros Hf Hd. unfold write_field.
  destruct (needs_quoting f) eqn:Hq.
  - rewrite <-app_comm_cons, <-app_assoc. cbn [app tokenize].
    known_characters.
    rewrite tokenize_in_quoted_field by done.
    by rewrite (right_id_L [] (++)), reverse_involutive.
  - apply not_needs_quoting in Hq; [|done].
    destruct Hq as [|c f [[Hcr Hnul] Hc] Hq].
    + destruct Hd as [-> | ->]; done.
    + cbn [app tokenize].
      rewrite bool_decide_eq_false_2 by tauto.
      rewrite (bool_decide_eq_false_2 (c = LF)) by tauto.
      rewrite (bool_decide_eq_false_2 (c = COMMA)) by tauto.
      rewrite (bool_decide_eq_false_2 (c = QUOTE)) by tauto.
      rewrite tokenize_in_field by done.
      by rewrite reverse_app, reverse_involutive.
Qed.

(** A written field followed by a comma, read from the start of a line. *)
Lemma tokenize_start_record f records rest :
  Forall kept f →
  tokenize START_RECORD [] [] records (write_field f ++ COMMA :: rest)
  = tokenize START_FIELD [] [f] records rest.
Proof.
  intros Hf. unfold write_field.
  destruct (needs_quoting f) eqn:Hq.
  - rewrite <-app_comm_cons, <-app_assoc. cbn [app tokenize].
    known_characters.
    rewrite tokenize_in_quoted_field by (done || by left).
    known_characters.
    by rewrite (right_id_L [] (++)), reverse_involutive.
  - apply not_needs_quoting in Hq; [|done].
    destruct Hq as [|c f [[Hcr Hnul] Hc] Hq].
    + done.
    + cbn [app tokenize].
      rewrite bool_decide_eq_false_2 by tauto.
      rewrite (bool_decide_eq_false_2 (c = LF)) by tauto.
      rewrite (bool_decide_eq_false_2 (c = COMMA)) by tauto.
      rewrite (bool_decide_eq_false_2 (c = QUOTE)) by tauto.
      destruct (is_whitespace c).
      * rewrite tokenize_whitespace_line by done.
        by rewrite reverse_app, reverse_involutive.
      * rewrite tokenize_in_field by (done || by left).
        rewrite bool_decide_eq_false_2 by done.
        by rewrite reverse_app, reverse_involutive.
Qed.

Lemma tokenize_fields fs record records rest :
  fs ≠ [] → Forall (Forall kept) fs →
  tokenize START_FIELD [] record records (write_record fs ++ rest)
  = tokenize START_RECORD [] [] ((reverse record ++ fs) :: records) rest.
Proof.
  intros Hne Hfs. revert record.
  induction Hfs as [|f fs Hf Hfs IH]; [done|]. intros record.
  destruct fs as [|g fs].
  - cbn [write_record]. rewrite <-app_assoc. cbn [app].
    rewrite tokenize_start_field by (done || by right).
    rewrite bool_decide_eq_true_2 by done. by rewrite reverse_cons.
  - change (write_record (f :: g :: fs))
      with (write_field f ++ COMMA :: write_record (g :: fs)).
    rewrite <-app_assoc. cbn [app].
    rewrite tokenize_start_field by (done || by left).
    rewrite bool_decide_eq_false_2 by done.
    rewrite IH by done. by rewrite reverse_cons, <-app_assoc.
Qed.

(** A written line of two or more fields is read as one record. *)
Lemma tokenize_record f g fs records rest :
  Forall (Forall kept) (f :: g :: fs) →
  tokenize START_RECORD [] [] records (write_record (f :: g :: fs) ++ rest)
  = tokenize START_RECORD [] [] ((f :: g :: fs) :: records) rest.
Proof.
  intros Hfs. apply Forall_cons in Hfs as [Hf Hfs].
  change (write_record (f :: g :: fs))
    with (write_field f ++ COMMA :: write_record (g :: fs)).
  rewrite <-app_assoc. cbn [app].
  rewrite tokenize_start_record by done.
  by rewrite tokenize_fields.
Qed.

(** Lines of two or more fields each are read back as they were
    written. *)
Lemma tokenize_write_record (written : list (list (list ascii))) records :
  Forall (λ fs, (2 ≤ length fs)%nat ∧ Forall (Forall kept) fs) written →
  tokenize START_RECORD [] [] records (written ≫= write_record)
  = Some (reverse records ++ written).
Proof.
  intros Hall. revert records.
  induction Hall as [|fs written [Hlen Hfs] _ IH]; intros records.
  - cbn. by rewrite (right_id_L [] (++)).
  - rewrite bind_cons. destruct fs as [|f [|g fs]]; try (simpl in Hlen; lia).
    rewrite tokenize_record by done. rewrite IH.
    by rewrite reverse_cons, <-app_assoc.
Qed.

(** *** Numbers *)

Lemma list_ascii_of_string_app (s1 s2 : string) :
  list_ascii_of_string (s1 +:+ s2)
  = list_ascii_of_string s1 ++ list_ascii_of_string s2.
Proof. induction s1 as [|ch s1 IH]; simpl; [done|by rewrite IH]. Qed.

Lemma digit_value_pretty_N_char (n : N) :
  (n < 10)%N →
  is_digit (pretty_N_char n) = true ∧ digit_value (pretty_N_char n) = Some n.
Proof.
  intros Hn.
  assert (n = 0 ∨ n = 1 ∨ n = 2 ∨ n = 3 ∨ n = 4 ∨ n = 5 ∨ n = 6 ∨ n = 7
          ∨ n = 8 ∨ n = 9)%N as Hcases by lia.
  repeat destruct Hcases as [->|Hcases]; try subst n; by vm_compute.
Qed.

Lemma parse_digits_app ds c acc rest :
  parse_digits acc (ds ++ c :: rest)
  = acc' ← parse_digits acc ds; parse_digits acc' (c :: rest).
Proof.
  revert acc. induction ds as [|d ds IH]; intros acc; [done|].
  cbn [app parse_digits]. destruct (digit_value d); [|done]. apply IH.
Qed.

(** The digits of [x], written in front of [s], read back as [x]. *)
Lemma pretty_N_go_digits (x : N) (s : string) :
  ∃ ds, list_ascii_of_string (pretty_N_go x s) = ds ++ list_ascii_of_string s ∧
        Forall (λ c, is_digit c = true) ds ∧
        ((0 < x)%N → ds ≠ []) ∧
        ∀ acc rest,
          parse_digits acc (ds ++ rest)
          = parse_digits (acc * 10 ^ N.of_nat (length ds) + x) rest.
Proof.
  revert s. induction (N.lt_wf_0 x) as [x _ IH]; intros s.
  assert (x = 0 ∨ 0 < x)%N as [->|Hx] by lia.
  - exists []. rewrite pretty_N_go_0. split_and!; [done|done|lia|].
    intros acc rest. simpl. f_equal. lia.
  - rewrite pretty_N_go_step by done.
    destruct (IH (x `div` 10)%N (N.div_lt x 10 Hx eq_refl)
                 (String (pretty_N_char (x `mod` 10)) s))
      as (ds & Hds & Hdigits & _ & Hparse).
    destruct (digit_value_pretty_N_char (x `mod` 10)%N) as [Hdigit Hvalue].
    { by apply N.mod_lt. }
    exists (ds ++ [pretty_N_char (x `mod` 10)%N]). split_and!.
    + rewrite Hds. simpl. by rewrite <-app_assoc.
    + apply Forall_app. split; [done|by constructor].
    + intros _. by destruct ds.
    + intros acc rest. rewrite <-app_assoc. cbn [app].
      rewrite Hparse. cbn [parse_digits]. rewrite Hvalue. cbn.
      f_equal. rewrite length_app. cbn [length].
      rewrite Nat.add_1_r, Nat2N.inj_succ, N.pow_succ_r'.
      pose proof (N.div_mod x 10 ltac:(done)). lia.
Qed.

Lemma pretty_N_digits (x : N) :
  ∃ c ds, list_ascii_of_string (pretty x) = c :: ds ∧
          Forall (λ c, is_digit c = true) (c :: ds) ∧
          ∀ rest, parse_digits 0 (c :: ds ++ rest) = parse_digits x rest.
Proof.
  unfold pretty, pretty_N. case_decide as Hx.
  - subst x. exists "0"%char, []. split_and!; [done|by repeat constructor|done].
  - destruct (pretty_N_go_digits x EmptyString)
      as (ds & Hds & Hdigits & Hne & Hparse).
    destruct ds as [|c ds]; [exfalso; apply Hne; [lia|done]|].
    exists c, ds. rewrite Hds. split_and!; [by rewrite app_nil_r|done|].
    intros rest. by rewrite app_comm_cons, (Hparse 0%N rest).
Qed.

Lemma digits_fixed_spec (k : nat) (x : N) :
  length (digits_fixed k x) = k ∧
  Forall (λ c, is_digit c = true) (digits_fixed k x) ∧
  ∀ acc rest,
    parse_digits acc (digits_fixed k x ++ rest)
    = parse_digits (acc * 10 ^ N.of_nat k + x `mod` 10 ^ N.of_nat k) rest.
Proof.
  revert x. induction k as [|k IH]; intros x.
  - split_and!; [done|done|]. intros acc rest. simpl. f_equal.
    rewrite N.mod_1_r. lia.
  - destruct (IH (x `div` 10)%N) as (Hlen & Hdigits & Hparse).
    destruct (digit_value_pretty_N_char (x `mod` 10)%N) as [Hdigit Hvalue].
    { by apply N.mod_lt. }
    cbn [digits_fixed]. split_and!.
    + rewrite length_app, Hlen. simpl. lia.
    + apply Forall_app. split; [done|by constructor].
    + intros acc rest. rewrite <-app_assoc. cbn [app].
      rewrite Hparse. cbn [parse_digits]. rewrite Hvalue. cbn.
      f_equal. rewrite Nat2N.inj_succ, N.pow_succ_r'.
      pose proof (N.pow_nonzero 10 (N.of_nat k) ltac:(done)) as Hpow.
      rewrite (N.Div0.mod_mul_r x 10 (10 ^ N.of_nat k)).
      lia.
Qed.

Lemma is_digit_not (c : ascii) (d : ascii) :
  is_digit c = true → is_digit d = false → c ≠ d.
Proof. intros Hc Hd ->. congruence. Qed.

Lemma split_at_point_digits ds rest :
  Forall (λ c, is_digit c = true) ds →
  split_at_point (ds ++ "."%char :: rest) = (ds, Some rest).
Proof.
  induction 1 as [|c ds Hc _ IH]; [done|].
  cbn [app split_at_point].
  rewrite bool_decide_eq_false_2 by (by apply is_digit_not).
  by rewrite IH.
Qed.

Lemma decimal_places_Some (q : Qc) (k : nat) :
  decimal_places q = Some k →
  ((10 ^ N.of_nat k) `mod` Npos (Qden q) = 0)%N.
Proof.
  unfold decimal_places. intros Hk.
  apply fmap_Some in Hk as ([i x] & Hfind & ->).
  apply list_find_Some in Hfind as (Hi & Hx & _).
  apply lookup_seq in Hi as [-> _]. done.
Qed.

(** The characters of a printed float. *)
Lemma float_repr_chars (q : Qc) (s : string) :
  float_repr q = Some s →
  ∃ (k len : nat) (c : ascii) (whole decimals : list ascii) (M : N),
    list_ascii_of_string s
    = (if bool_decide (Qnum q < 0)%Z then ["-"%char] else [])
        ++ (c :: whole) ++ "."%char :: decimals ∧
    Forall (λ c, is_digit c = true) (c :: whole) ∧
    Forall (λ c, is_digit c = true) decimals ∧
    length decimals = len ∧ (0 < len)%nat ∧
    parse_digits 0 ((c :: whole) ++ decimals) = Some M ∧
    (M * 10 ^ N.of_nat k = mantissa q k * 10 ^ N.of_nat len)%N ∧
    ((10 ^ N.of_nat k) `mod` Npos (Qden q) = 0)%N.
Proof.
  unfold float_repr. intros Hrepr.
  destruct (decimal_places q) as [k|] eqn:Hk; [|done]. cbn in Hrepr.
  apply decimal_places_Some in Hk.
  case_bool_decide as Hcond; [|done]. injection Hrepr as <-.
  set (m := mantissa q k).
  destruct (pretty_N_digits (m `div` 10 ^ N.of_nat k)%N)
    as (c & whole & Hpretty & Hwhole & Hparse).
  pose proof (N.pow_nonzero 10 (N.of_nat k) ltac:(done)) as Hpow.
  rewrite !list_ascii_of_string_app, Hpretty.
  destruct k as [|k'].
  - exists 0%nat, 1%nat, c, whole, ["0"%char], (10 * m)%N.
    split_and!; [by destruct (bool_decide _)|done|by repeat constructor|
                 done|lia| |lia|done].
    rewrite <-app_comm_cons, Hparse. cbn [parse_digits].
    change (digit_value "0") with (Some 0%N). cbn.
    change (10 ^ N.of_nat 0)%N with 1%N. rewrite N.div_1_r. f_equal. lia.
  - set (k := S k') in *.
    destruct (digits_fixed_spec k (m `mod` 10 ^ N.of_nat k)%N)
      as (Hlen & Hdecimals & Hparse').
    exists k, k, c, whole, (digits_fixed k (m `mod` 10 ^ N.of_nat k)%N), m.
    split_and!; [|done|done|done|lia| |done|done].
    + destruct (bool_decide (Qnum q < 0)%Z); cbn [list_ascii_of_string app];
        by rewrite list_ascii_of_string_of_list_ascii.
    + rewrite <-app_comm_cons, Hparse.
      rewrite <-(app_nil_r (digits_fixed _ _)), Hparse'. cbn. f_equal.
      rewrite N.Div0.mod_mod.
      pose proof (N.div_mod m (10 ^ N.of_nat k) Hpow). lia.
Qed.

Lemma Qc_of_parts (q : Qc) (num : Z) (den : positive) :
  (num * Zpos (Qden q) = Qnum q * Zpos den)%Z → Q2Qc (Qmake num den) = q.
Proof.
  intros Heq. apply Qc_is_canon. simpl. rewrite Qred_correct.
  unfold Qeq. simpl. done.
Qed.

(** A printed float is read back as the number it stands for. *)
Lemma parse_decimal_float_repr (q : Qc) (s : string) :
  float_repr q = Some s → parse_decimal (list_ascii_of_string s) = Some q.
Proof.
  intros Hrepr.
  destruct (float_repr_chars q s Hrepr)
    as (k & len & c & whole & decimals & M & -> & Hwhole & Hdecimals
        & Hlen & Hpos & Hparse & HM & Hk).
  assert (c ≠ "-"%char) as Hc.
  { apply Forall_cons in Hwhole as [Hc _]. by apply is_digit_not. }
  assert (parse_decimal
            ((if bool_decide (Qnum q < 0)%Z then ["-"%char] else [])
               ++ (c :: whole) ++ "."%char :: decimals)
          = Some (Q2Qc (Qmake ((if bool_decide (Qnum q < 0)%Z then -1 else 1)
                               * Z.of_N M)
                              (Z.to_pos (10 ^ Z.of_nat len))))) as ->.
  { unfold parse_decimal.
    destruct (bool_decide (Qnum q < 0)%Z); cbn [app].
    - rewrite bool_decide_eq_true_2 by done.
      rewrite app_comm_cons, split_at_point_digits by done.
      destruct decimals as [|d decimals]; [simpl in Hlen; lia|].
      cbn [default from_option id]. rewrite Hparse. cbn [mbind option_bind]. by rewrite Hlen.
    - rewrite bool_decide_eq_false_2 by done.
      rewrite app_comm_cons, split_at_point_digits by done.
      destruct decimals as [|d decimals]; [simpl in Hlen; lia|].
      cbn [default from_option id]. rewrite Hparse. cbn [mbind option_bind]. by rewrite Hlen. }
  f_equal. apply Qc_of_parts.
  assert (0 < 10 ^ Z.of_nat len)%Z as Hten by (apply Z.pow_pos_nonneg; lia).
  rewrite Z2Pos.id by done.
  unfold mantissa in HM.
  assert (10 ^ N.of_nat k
          = Npos (Qden q) * (10 ^ N.of_nat k `div` Npos (Qden q)))%N as Hdiv.
  { pose proof (N.div_mod (10 ^ N.of_nat k) (Npos (Qden q)) ltac:(done)).
    lia. }
  set (c0 := (10 ^ N.of_nat k `div` Npos (Qden q))%N) in *.
  assert (0 < c0)%N as Hc0.
  { pose proof (N.pow_nonzero 10 (N.of_nat k) ltac:(done)).
    destruct (decide (c0 = 0)%N) as [Hz|]; [|lia]. rewrite Hz in Hdiv. lia. }
  assert (M * Npos (Qden q) = Z.abs_N (Qnum q) * 10 ^ N.of_nat len)%N as HM'.
  { apply (N.mul_cancel_r _ _ c0); [lia|]. rewrite Hdiv in HM. lia. }
  apply (f_equal Z.of_N) in HM'.
  rewrite !N2Z.inj_mul, N2Z.inj_pow, N2Z.inj_abs_N, nat_N_Z in HM'.
  change (Z.of_N 10) with 10%Z in HM'.
  change (Z.of_N (Npos (Qden q))) with (Zpos (Qden q)) in HM'.
  case_bool_decide; lia.
Qed.

(** *** Cells and columns *)

Lemma float_repr_numeral (q : Qc) (s : string) :
  float_repr q = Some s →
  s ≠ EmptyString ∧
  Forall (λ c, numeral_char c = true) (list_ascii_of_string s).
Proof.
  intros Hrepr.
  destruct (float_repr_chars q s Hrepr)
    as (k & len & c & whole & decimals & M & Hs & Hwhole & Hdecimals & _).
  split.
  - intros ->. by destruct (bool_decide (Qnum q < 0)%Z).
  - assert (∀ ds, Forall (λ c, is_digit c = true) ds →
                  Forall (λ c, numeral_char c = true) ds) as Hdigits.
    { intros ds Hds. eapply Forall_impl; [exact Hds|]. intros d Hd.
      unfold numeral_char. by rewrite Hd. }
    rewrite Hs. apply Forall_app. split; [|apply Forall_app; split].
    + destruct (bool_decide (Qnum q < 0)%Z); by repeat constructor.
    + by apply Hdigits.
    + apply Forall_cons. split; [done|by apply Hdigits].
Qed.

Lemma numeral_not_marker (s : string) :
  s ≠ EmptyString →
  Forall (λ c, numeral_char c = true) (list_ascii_of_string s) →
  (s ∉ NA_VALUES) ∧ s ≠ "None".
Proof.
  intros Hne Hs.
  assert (Forall (λ t, t = EmptyString ∨
                       ¬ Forall (λ c, numeral_char c = true)
                                (list_ascii_of_string t))
                 ("None" :: NA_VALUES)) as Hmarkers.
  { by apply (bool_decide_unpack _); vm_compute. }
  apply Forall_cons in Hmarkers as [Hnone Hmarkers]. split.
  - intros Hin. eapply Forall_forall in Hmarkers; [|exact Hin].
    by destruct Hmarkers.
  - intros ->. by destruct Hnone.
Qed.

(** A printed float is read as the number it stands for. *)
Lemma classify_float_repr (q : Qc) (s : string) :
  float_repr q = Some s → classify s = KNumber q.
Proof.
  intros Hrepr.
  destruct (float_repr_numeral q s Hrepr) as [Hne Hs].
  destruct (numeral_not_marker s Hne Hs) as [Hna Hnone].
  unfold classify.
  rewrite (bool_decide_eq_false_2 (s ∈ NA_VALUES)) by done.
  rewrite (bool_decide_eq_false_2 (s = "None")) by done.
  rewrite (parse_decimal_float_repr q s Hrepr).
  by rewrite bool_decide_eq_true_2 by (by eexists).
Qed.

Lemma classify_number_field (c : option Qc) :
  printed c →
  classify (number_field c)
  = match c with Some q => KNumber q | None => KNa end.
Proof.
  destruct c as [q|]; [|done]. intros [s Hs].
  change (number_field (Some q)) with (default EmptyString (float_repr q)).
  rewrite Hs. by apply classify_float_repr.
Qed.

Lemma classify_boolean_field (c : option bool) :
  classify (boolean_field c)
  = match c with Some b => KBoolean b | None => KNa end.
Proof. by destruct c as [[]|]. Qed.

Lemma forallb_Forall {A} (f : A → bool) (l : list A) :
  forallb f l = true ↔ Forall (λ x, f x = true) l.
Proof.
  induction l as [|x l IH]; simpl.
  - split; [constructor|done].
  - rewrite andb_true_iff, Forall_cons, IH. done.
Qed.

Lemma column_kind_Some (fields : list string) (k : ColumnKind) :
  Forall (λ f, classify f ≠ KUnsupported) fields →
  k = (if forallb number_or_na (classify <$> fields) then Numbers
       else if forallb boolean_or_na (classify <$> fields) then Booleans
       else Strings) →
  column_kind fields = Some k.
Proof.
  intros Hok ->. unfold column_kind.
  rewrite bool_decide_eq_false_2; [by repeat case_match|].
  intros (f & Hf & Hin)%list_elem_of_fmap.
  eapply Forall_forall in Hok; [|exact Hin]. by apply Hok.
Qed.

(** A column of numbers is read back as it was. *)
Lemma number_column (col : list (option Qc)) :
  Forall printed col →
  column_kind (number_field <$> col) = Some Numbers ∧
  Forall (λ c, cell_of Numbers (number_field c) = number_cell c) col.
Proof.
  intros Hcol. split.
  - apply column_kind_Some.
    + apply Forall_fmap, Forall_forall. intros c Hc.
      eapply Forall_forall in Hcol; [|exact Hc]. simpl.
      rewrite classify_number_field by done. by destruct c.
    + rewrite (proj2 (forallb_Forall _ _)); [done|].
      apply Forall_fmap, Forall_fmap, Forall_forall. intros c Hc.
      eapply Forall_forall in Hcol; [|exact Hc]. simpl.
      rewrite classify_number_field by done. by destruct c.
  - eapply Forall_impl; [exact Hcol|]. intros c Hc. unfold cell_of.
    rewrite classify_number_field by done. by destruct c.
Qed.

(** A column of booleans is read back as it was. *)
Lemma boolean_column (col : list (option bool)) :
  ∃ k, column_kind (boolean_field <$> col) = Some k ∧
       Forall (λ c, cell_of k (boolean_field c) = boolean_cell c) col.
Proof.
  destruct (forallb number_or_na (classify <$> (boolean_field <$> col)))
    eqn:Hnumbers.
  - exists Numbers. split.
    + apply column_kind_Some; [|by rewrite Hnumbers].
      apply Forall_fmap, Forall_forall. intros c _. simpl.
      rewrite classify_boolean_field. by destruct c.
    + apply forallb_Forall in Hnumbers.
      rewrite !Forall_fmap in Hnumbers.
      eapply Forall_impl; [exact Hnumbers|]. intros c Hc. simpl in Hc.
      unfold cell_of. rewrite classify_boolean_field in *.
      by destruct c.
  - exists Booleans. split.
    + apply column_kind_Some.
      * apply Forall_fmap, Forall_forall. intros c _. simpl.
        rewrite classify_boolean_field. by destruct c.
      * rewrite Hnumbers. rewrite (proj2 (forallb_Forall _ _)); [done|].
        apply Forall_fmap, Forall_fmap, Forall_forall. intros c _. simpl.
        rewrite classify_boolean_field. by destruct c.
    + apply Forall_forall. intros c _. unfold cell_of.
      rewrite classify_boolean_field. by destruct c.
Qed.

(** A column of text that is read as text is read back as it was. *)
Lemma text_column (col : list (option string)) :
  reads_as_text col →
  ∃ k, column_kind (text_field <$> col) = Some k ∧
       Forall (λ c, cell_of k (text_field c) = text_cell c) col.
Proof.
  intros [Htext [Hnone|Hstrings]].
  - exists Numbers. split.
    + apply column_kind_Some.
      * apply Forall_fmap. eapply Forall_impl; [exact Hnone|].
        by intros c ->.
      * rewrite (proj2 (forallb_Forall _ _)); [done|].
        apply Forall_fmap, Forall_fmap.
        eapply Forall_impl; [exact Hnone|]. by intros c ->.
    + eapply Forall_impl; [exact Hnone|]. by intros c ->.
  - exists Strings. split; [done|].
    eapply Forall_impl; [exact Htext|]. intros [s|] Hc; [|done].
    simpl in Hc. unfold cell_of. simpl. by destruct (classify s).
Qed.

(** *** The round trip *)

Lemma numeral_char_kept (c : ascii) : numeral_char c = true → kept c.
Proof.
  intros Hc. split; intros ->; by vm_compute in Hc.
Qed.

(** The fields of an exportable row hold no character the writer or the
    tokenizer would not keep. *)
Lemma fields_of_kept (r : Row) :
  exportable r → Forall (Forall kept) (list_ascii_of_string <$> fields_of r).
Proof.
  intros [(Hname & Hneigh & Hroom & Hpolicy) (Hprice & Hscore & Havail & Hrev)].
  assert (∀ c, written_as_is c → Forall kept (list_ascii_of_string (text_field c)))
    as Htext.
  { intros [s|]; [|by constructor]. intros [Hcr Hnul]. simpl.
    apply Forall_forall. intros c Hc. split; by intros ->. }
  assert (∀ c, printed c → Forall kept (list_ascii_of_string (number_field c)))
    as Hnumber.
  { intros [q|]; [|by constructor]. intros [s Hs].
    change (number_field (Some q)) with (default EmptyString (float_repr q)).
    rewrite Hs. simpl.
    destruct (float_repr_numeral q s Hs) as [_ Hchars].
    eapply Forall_impl; [exact Hchars|]. apply numeral_char_kept. }
  assert (∀ c, Forall kept (list_ascii_of_string (boolean_field c)))
    as Hboolean.
  { intros [[]|]; simpl; repeat constructor; by intros [=]. }
  unfold fields_of. cbn [fmap list_fmap].
  repeat (apply Forall_cons; split); auto.
Qed.

Lemma column_of_fields (j : nat) (f : Row → string) (df : Table) :
  (∀ r, fields_of r !!! j = f r) →
  (λ record : list string, record !!! j) <$> (fields_of <$> df) = f <$> df.
Proof.
  intros Hf. rewrite <-list_fmap_compose. apply list_fmap_ext.
  intros i r _. apply Hf.
Qed.

Lemma strings_of_chars (records : list (list string)) :
  (λ record : list (list ascii), string_of_list_ascii <$> record)
    <$> ((λ fields : list string, list_ascii_of_string <$> fields) <$> records)
  = records.
Proof.
  rewrite <-list_fmap_compose. rewrite <-(list_fmap_id records) at 2.
  apply list_fmap_ext. intros _ fs _. simpl.
  rewrite <-list_fmap_compose. rewrite <-(list_fmap_id fs) at 2.
  apply list_fmap_ext. intros _ f _. apply string_of_list_ascii_of_string.
Qed.

(** C7. The export of a table, read back, is the table: same column
    names and, row for row and column for column, the same cells. This
    holds for a table that the model exports (every number a decimal
    that [repr] prints in full, no carriage return or NUL in a text),
    that has no more rows than [read_csv] reads in one piece, and whose
    four columns of text read as text: no text cell is a missing-value
    marker, and a column that has a value has fields that are not all
    numbers and not all booleans. The export is produced, and reading it
    succeeds. *)
Theorem export_parse_round_trip (df : Table) :
  Forall exportable df →
  (length df ≤ chunk_rows)%nat →
  reads_as_text (name <$> df) →
  reads_as_text (neighbourhood_cleansed <$> df) →
  reads_as_text (room_type <$> df) →
  reads_as_text (cancellation_policy <$> df) →
  ∃ csv, to_csv df = Some csv ∧ read_csv csv = Some (frame_of df).
Proof.
  unfold to_csv. intros Hexport Hlen Hname Hneigh Hroom Hpolicy.
  rewrite decide_True by done. eexists. split; [done|].
  unfold read_csv. rewrite list_ascii_of_string_of_list_ascii.
  rewrite tokenize_write_record.
  2:{ apply Forall_fmap, Forall_cons. split.
      - split; [simpl; lia|]. by apply (bool_decide_unpack _); vm_compute.
      - apply Forall_fmap. eapply Forall_impl; [exact Hexport|].
        intros r Hr. simpl. split; [lia|]. by apply fields_of_kept. }
  cbn [reverse rev_append app mbind option_bind].
  rewrite strings_of_chars.
  rewrite bool_decide_eq_true_2.
  2:{ split_and!.
      - by apply (bool_decide_unpack _); vm_compute.
      - by apply (bool_decide_unpack _); vm_compute.
      - apply Forall_fmap, Forall_forall. by intros r _.
      - by rewrite length_fmap. }
  destruct (text_column _ Hname) as (k0 & Hk0 & Hc0).
  destruct (text_column _ Hneigh) as (k1 & Hk1 & Hc1).
  destruct (text_column _ Hroom) as (k2 & Hk2 & Hc2).
  destruct (text_column _ Hpolicy) as (k7 & Hk7 & Hc7).
  destruct (boolean_column (host_is_superhost <$> df)) as (k4 & Hk4 & Hc4).
  assert (∀ col : Row → option Qc,
            (∀ r, exportable r → printed (col r)) →
            Forall printed (col <$> df)) as Hprinted.
  { intros col Hcol. apply Forall_fmap.
    eapply Forall_impl; [exact Hexport|]. done. }
  destruct (number_column (price <$> df)) as [Hk3 Hc3].
  { apply Hprinted. by intros r (_ & ? & _). }
  destruct (number_column (review_score_avg <$> df)) as [Hk5 Hc5].
  { apply Hprinted. by intros r (_ & _ & ? & _). }
  destruct (number_column (availability_365 <$> df)) as [Hk6 Hc6].
  { apply Hprinted. by intros r (_ & _ & _ & ? & _). }
  destruct (number_column (reviews_per_month <$> df)) as [Hk8 Hc8].
  { apply Hprinted. by intros r (_ & _ & _ & _ & ?). }
  rewrite <-list_fmap_compose in Hk0. rewrite <-list_fmap_compose in Hk1.
  rewrite <-list_fmap_compose in Hk2. rewrite <-list_fmap_compose in Hk3.
  rewrite <-list_fmap_compose in Hk4. rewrite <-list_fmap_compose in Hk5.
  rewrite <-list_fmap_compose in Hk6. rewrite <-list_fmap_compose in Hk7.
  rewrite <-list_fmap_compose in Hk8.
  change (length columns) with 9%nat. cbn [seq mapM].
  rewrite (column_of_fields 0 (text_field ∘ name)) by done.
  rewrite (column_of_fields 1 (text_field ∘ neighbourhood_cleansed)) by done.
  rewrite (column_of_fields 2 (text_field ∘ room_type)) by done.
  rewrite (column_of_fields 3 (number_field ∘ price)) by done.
  rewrite (column_of_fields 4 (boolean_field ∘ host_is_superhost)) by done.
  rewrite (column_of_fields 5 (number_field ∘ review_score_avg)) by done.
  rewrite (column_of_fields 6 (number_field ∘ availability_365)) by done.
  rewrite (column_of_fields 7 (text_field ∘ cancellation_policy)) by done.
  rewrite (column_of_fields 8 (number_field ∘ reviews_per_month)) by done.
  rewrite Hk0, Hk1, Hk2, Hk3, Hk4, Hk5, Hk6, Hk7, Hk8.
  cbn [mbind option_bind mret option_ret]. unfold frame_of. do 2 f_equal.
  rewrite <-list_fmap_compose. apply list_fmap_ext. intros i r Hr.
  assert (∀ {A} (col : Row → option A) (P : option A → Prop),
            Forall P (col <$> df) → P (col r)) as Hcell.
  { intros A col P Hall. rewrite Forall_forall in Hall. apply Hall.
    apply list_elem_of_fmap_2. by eapply list_elem_of_lookup_2. }
  simpl. unfold cells_of.
  rewrite (Hcell _ name _ Hc0), (Hcell _ neighbourhood_cleansed _ Hc1),
    (Hcell _ room_type _ Hc2), (Hcell _ price _ Hc3),
    (Hcell _ host_is_superhost _ Hc4), (Hcell _ review_score_avg _ Hc5),
    (Hcell _ availability_365 _ Hc6), (Hcell _ cancellation_policy _ Hc7),
    (Hcell _ reviews_per_month _ Hc8).
  done.
Qed.

(** C7, on the two sample listings of Ballard and Fremont. *)
Lemma export_parse_round_trip_witness :
  ∃ csv, to_csv [listing_ballard; listing_fremont] = Some csv ∧
         read_csv csv = Some (frame_of [listing_ballard; listing_fremont]).
Proof.
  apply (export_parse_round_trip [listing_ballard; listing_fremont]).
  - by apply (bool_decide_unpack _); vm_compute.
  - vm_compute. repeat constructor.
  - split; [repeat constructor; vm_compute; discriminate|].
    right. vm_compute. reflexivity.
  - split; [repeat constructor; vm_compute; discriminate|].
    right. vm_compute. reflexivity.
  - split; [repeat constructor; vm_compute; discriminate|].
    right. vm_compute. reflexivity.
  - split; [repeat constructor; vm_compute; discriminate|].
    right. vm_compute. reflexivity.
Defined.

(** The text that is exported for the two sample listings. *)
Example to_csv_sample :
  to_csv [listing_ballard; listing_fremont] = Some export_sample.
Proof. vm_compute. reflexivity. Qed.

(** With no row left the export is the header line alone, and reading it
    back gives the columns without rows. *)
Example to_csv_no_rows :
  apply_filters (mkCriteria [] [] 50 500 true) [listing_fremont] = [] ∧
  to_csv [] = Some (unlines [
    "name,neighbourhood_cleansed,room_type,price,host_is_superhost,review_score_avg,availability_365,cancellation_policy,reviews_per_month"]) ∧
  (∀ csv, to_csv [] = Some csv → read_csv csv = Some (columns, [])).
Proof.
  split_and!; [vm_compute; reflexivity..|].
  intros csv [= <-]. vm_compute. reflexivity.
Qed.

(** C7 as stated fails. Of two listings, "Cozy Loft" in Ballard and "206"
    in Fremont, the filter on Fremont keeps the second alone. In the loaded
    table the name 206 is text, next to a name that is no number; in the
    export it is the only name, so [read_csv] reads the column as numbers
    and hands back the number 206 where the filtered table has the text
    "206". *)
Lemma export_round_trip_fails :
  let shown := apply_filters fremont_only [listing_ballard; listing_206] in
  shown = [listing_206] ∧
  to_csv shown = Some export_206 ∧
  read_csv export_206 = Some read_back_206 ∧
  read_back_206 ≠ frame_of shown.
Proof.
  assert (apply_filters fremont_only [listing_ballard; listing_206]
          = [listing_206]) as Hshown
    by (by apply (bool_decide_unpack _); vm_compute).
  cbv zeta. rewrite Hshown. split_and!.
  - done.
  - vm_compute. reflexivity.
  - by apply (bool_decide_unpack _); vm_compute.
  - by apply (bool_decide_unpack _); vm_compute.
Qed.


(** * Further properties of the script *)

(** ** The filter engine, continued *)

Lemma selection_ok_spec (sel : list (option string)) cell :
  Is_true (match sel with [] => true | _ :: _ => isin sel cell end)
  ↔ sel = [] ∨ cell ∈ sel.
Proof.
  destruct sel as [|x sel].
  - split; [by left|done].
  - rewrite isin_spec. split; [by right|by intros [?|?]].
Qed.

Lemma superhost_ok_spec c r :
  superhost_ok c r ↔
  superhost_filter c = false ∨ host_is_superhost r = Some true.
Proof.
  unfold superhost_ok. destruct (superhost_filter c).
  - rewrite eq_True_spec. split; [by right|by intros [?|?]].
  - split; [by left|done].
Qed.

(** X1. The filtered table holds exactly the rows of the loaded table that
    pass all four predicates: no row that passes is lost. *)
Theorem apply_filters_keeps_exactly (c : Criteria) (df : Table) (r : Row) :
  r ∈ apply_filters c df ↔
  r ∈ df ∧
  (neighborhoods c = [] ∨ neighbourhood_cleansed r ∈ neighborhoods c) ∧
  (room_types c = [] ∨ room_type r ∈ room_types c) ∧
  (∃ p, price r = Some p ∧
        Qc_of_Z (min_price c) ≤ p ∧ p ≤ Qc_of_Z (max_price c)) ∧
  (superhost_filter c = false ∨ host_is_superhost r = Some true).
Proof.
  rewrite elem_of_apply_filters. unfold row_ok.
  rewrite !andb_True, price_ok_spec, superhost_ok_spec.
  unfold neighbourhood_ok, room_type_ok. rewrite !selection_ok_spec. tauto.
Qed.

(** X2. Filtering by one set of criteria and then by another gives the
    same table as filtering in the opposite order. *)
Theorem apply_filters_commute (c1 c2 : Criteria) (df : Table) :
  apply_filters c1 (apply_filters c2 df) = apply_filters c2 (apply_filters c1 df).
Proof.
  rewrite !apply_filters_filter, !list_filter_filter.
  apply list_filter_iff. tauto.
Qed.

Lemma selection_wider_ok sel sel' cell :
  selection_wider sel sel' →
  Is_true (match sel with [] => true | _ :: _ => isin sel cell end) →
  Is_true (match sel' with [] => true | _ :: _ => isin sel' cell end).
Proof.
  rewrite !selection_ok_spec. intros [->|[Hne Hsub]]; [by left|].
  intros [?|Hin]; [done|]. right. by apply Hsub.
Qed.

Lemma wider_row_ok c c' r : wider c c' → row_ok c r → row_ok c' r.
Proof.
  intros (Hn & Hrt & Hlo & Hhi & Hs). unfold row_ok. rewrite !andb_True.
  intros [[[Hn' Hrt'] Hp] Hs']. split_and!.
  - by eapply selection_wider_ok.
  - by eapply selection_wider_ok.
  - apply price_ok_spec in Hp as (p & Hp & Hlo' & Hhi').
    apply price_ok_spec. exists p. split_and!; [done| |].
    + eapply Qcle_trans; [|exact Hlo']. by apply (proj1 (Z2Qc_inj_le _ _)).
    + eapply Qcle_trans; [exact Hhi'|]. by apply (proj1 (Z2Qc_inj_le _ _)).
  - unfold superhost_ok in *. destruct Hs as [->|Hs]; [done|].
    rewrite Hs in Hs'. by destruct (superhost_filter c').
Qed.

(** X3. Relaxing the criteria (a wider price range, more neighbourhoods
    or room types ticked or the selection cleared, the superhost box
    unticked) only adds rows: the table shown before is obtained from the
    table shown after by deleting rows. *)
Theorem apply_filters_monotone (c c' : Criteria) (df : Table) :
  wider c c' → apply_filters c df `sublist_of` apply_filters c' df.
Proof.
  intros Hwider. rewrite !apply_filters_filter.
  rewrite <-(list_filter_filter_l (λ r, Is_true (row_ok c r))
               (λ r, Is_true (row_ok c' r)) df).
  - apply sublist_filter.
  - intros r. by apply wider_row_ok.
Qed.

(** X3, for two price ranges over the sample table. *)
Lemma apply_filters_monotone_witness :
  wider out_of_range whole_range_750 ∧
  apply_filters out_of_range tied_listings
    `sublist_of` apply_filters whole_range_750 tied_listings.
Proof.
  assert (wider out_of_range whole_range_750) as Hwider.
  { unfold wider, selection_wider. simpl. split_and!; auto; lia. }
  split; [exact Hwider|].
  exact (apply_filters_monotone out_of_range whole_range_750 tied_listings
           Hwider).
Defined.

(** X4. A listing without a price is shown under no criteria: the price
    mask is always applied and a NaN passes neither comparison. *)
Theorem missing_price_never_shown (c : Criteria) (df : Table) :
  Forall (λ r, price r ≠ None) (apply_filters c df).
Proof.
  apply Forall_forall. intros r Hr.
  apply elem_of_apply_filters in Hr as [Hok _].
  unfold row_ok in Hok. rewrite !andb_True in Hok.
  destruct Hok as [[_ Hp] _].
  apply price_ok_spec in Hp as (p & -> & _). done.
Qed.

(** ** The sidebar widgets *)

Lemma int_of_nonneg (x : Qc) :
  0 ≤ x →
  (0 ≤ int_of x)%Z ∧ Qc_of_Z (int_of x) ≤ x ∧ x < Qc_of_Z (int_of x + 1).
Proof.
  destruct x as [[n d] Hc]. unfold int_of, Qcle, Qclt, Qle, Qlt. simpl.
  intros Hn. assert (0 ≤ n)%Z as Hn' by lia.
  rewrite Z.quot_div_nonneg by lia.
  pose proof (Z.div_mod n (Z.pos d) ltac:(lia)) as Hdiv.
  pose proof (Z.mod_pos_bound n (Z.pos d) ltac:(lia)) as Hmod.
  pose proof (Z.div_pos n (Z.pos d) ltac:(lia) ltac:(lia)) as Hpos.
  split_and!; [lia|nia|nia].
Qed.

Lemma dropna_nil_iff {A} (col : list (option A)) :
  dropna col = [] ↔ Forall (λ cell, cell = None) col.
Proof.
  induction col as [|[x|] col IH]; csimpl.
  - split; [constructor|done].
  - split; [done|]. by intros [[=] _]%Forall_cons.
  - unfold dropna in IH. rewrite IH, Forall_cons. tauto.
Qed.


(** A slider that is built offers the range its arguments give once they
    are put in order and widened to hold the preset selection. *)
Lemma price_range_slider_built (df : Table) (lo hi : Z) :
  price_range_slider df = inr (lo, hi) →
  ∃ m, col_max (map price df) = Some m ∧
       lo = Z.min 50 (Z.min 0 (int_of m)) ∧
       hi = Z.max 500 (Z.max (Z.min 0 (int_of m)) (int_of m)) ∧
       (- MAX_SAFE_INTEGER ≤ lo)%Z ∧ (hi ≤ MAX_SAFE_INTEGER)%Z.
Proof.
  unfold price_range_slider, slider_bounds, slider.
  destruct (col_max (map price df)) as [m|]; [|done].
  cbn [fst snd]. case_bool_decide as Hsafe; [|done].
  intros [= <- <-]. exists m. by destruct Hsafe.
Qed.

(** X6. When the slider is built and no price is negative, its range runs
    from 0 to the larger of 500 and the dearest price cut down to a whole
    number (Streamlit widens the range to hold the preset selection
    (50, 500)). The dearest price is the price of some listing, no listing
    costs more, and cutting it down takes off less than one. *)
Theorem price_range_slider_range (df : Table) (lo hi : Z) :
  price_range_slider df = inr (lo, hi) →
  Forall (λ r, ∀ p, price r = Some p → 0 ≤ p) df →
  ∃ m, (∃ r, r ∈ df ∧ price r = Some m) ∧
       Forall (λ r, ∀ p, price r = Some p → p ≤ m) df ∧
       lo = 0%Z ∧ hi = Z.max (int_of m) 500 ∧
       Qc_of_Z (int_of m) ≤ m ∧ m < Qc_of_Z (int_of m + 1).
Proof.
  intros Hb Hpos.
  destruct (price_range_slider_built _ _ _ Hb) as (m & Hmax & -> & -> & _).
  destruct (col_max_spec _ _ Hmax) as [Hin Hle].
  apply list_elem_of_fmap in Hin as (r & Hm & Hr).
  assert (0 ≤ m) as Hm0.
  { eapply Forall_forall in Hpos; [|exact Hr]. by apply Hpos. }
  destruct (int_of_nonneg m Hm0) as (Hhi & Hfloor & Hnext).
  exists m. split_and!; [by exists r| |lia|lia|done|done].
  apply Forall_forall. intros r' Hr' p Hp.
  apply Hle. rewrite <-Hp. by apply list_elem_of_fmap_2.
Qed.

(** X6, on the two sample listings priced 500 and 750.50. *)
Lemma price_range_slider_range_witness :
  let df := [listing_ballard; listing_fremont] in
  ∃ m, (∃ r, r ∈ df ∧ price r = Some m) ∧
       Forall (λ r, ∀ p, price r = Some p → p ≤ m) df ∧
       0%Z = 0%Z ∧ 750%Z = Z.max (int_of m) 500 ∧
       Qc_of_Z (int_of m) ≤ m ∧ m < Qc_of_Z (int_of m + 1).
Proof.
  apply (price_range_slider_range [listing_ballard; listing_fremont] 0 750).
  - vm_compute. reflexivity.
  - repeat constructor; intros p [= <-]; vm_compute; discriminate.
Defined.



Lemma Sorted_all_None (R : relation (option string)) (l : list (option string)) :
  (∀ b, R None b) → Forall (λ cell, cell = None) l → Sorted R l.
Proof.
  intros HR. induction 1 as [|x l -> _ IH]; constructor; [done|].
  destruct l; constructor. apply HR.
Qed.

(** X8. The option list of a multiselect (lines 53-54). Building it raises,
    with a TypeError and nothing else, exactly when the column holds both a
    NaN and a text. Otherwise it lists every distinct cell of the column
    once, the texts in ascending order. *)
Theorem sorted_unique_spec (col : list (option string)) :
  (∀ e, sorted_unique col = inl e ↔
        e = TypeError ∧ None ∈ col ∧ ∃ s, Some s ∈ col) ∧
  (∀ options, sorted_unique col = inr options →
     NoDup options ∧
     (∀ cell, cell ∈ options ↔ cell ∈ col) ∧
     Sorted (λ a b, match a, b with
                    | Some s, Some t => String.le s t
                    | _, _ => True
                    end) options).
Proof.
  unfold sorted_unique.
  destruct (dropna col) as [|x xs] eqn:Hcol.
  - apply dropna_nil_iff in Hcol as Hnone. split.
    + intros e. split; [done|]. intros (_ & _ & s & Hs).
      apply elem_of_dropna in Hs. rewrite Hcol in Hs. by apply elem_of_nil in Hs.
    + intros options [= <-]. split_and!.
      * apply NoDup_remove_dups.
      * intros cell. apply elem_of_remove_dups.
      * apply Sorted_all_None; [done|].
        apply Forall_forall. intros cell Hcell.
        apply (proj1 (elem_of_remove_dups _ _)) in Hcell.
        exact (proj1 (Forall_forall _ _) Hnone cell Hcell).
  - assert (Some x ∈ col) as Hx.
    { apply elem_of_dropna. rewrite Hcol. by left. }
    rewrite <-Hcol. clear Hcol. case_bool_decide as Hnan.
    + split; [|done]. intros e. split.
      * intros [= <-]. split_and!; [done|done|]. by exists x.
      * by intros [-> _].
    + split.
      * intros e. split; [done|]. by intros (_ & ? & _).
      * intros options [= <-]. split_and!.
        -- apply (NoDup_fmap_2 Some). rewrite merge_sort_Permutation.
           apply NoDup_remove_dups.
        -- intros cell. rewrite list_elem_of_fmap.
           setoid_rewrite merge_sort_Permutation.
           setoid_rewrite elem_of_remove_dups.
           setoid_rewrite elem_of_dropna. split.
           ++ by intros (s & -> & ?).
           ++ destruct cell as [s|]; [|done]. intros ?. by exists s.
        -- eapply (Sorted_fmap Some String.le); [|apply Sorted_merge_sort; apply _].
           done.
Qed.

(** ** Means *)

Lemma Qc_of_nat_S (n : nat) :
  Qc_of_Z (Z.of_nat (S n)) = Qc_of_Z (Z.of_nat n) + 1.
Proof. by rewrite Nat2Z.inj_succ, <-Z.add_1_r, Z2Qc_inj_add, Z2Qc_inj_1. Qed.

Lemma sum_Qc_bounds (lo hi : Qc) (xs : list Qc) :
  Forall (λ x, lo ≤ x ∧ x ≤ hi) xs →
  Qc_of_Z (Z.of_nat (length xs)) * lo ≤ sum_Qc xs ∧
  sum_Qc xs ≤ Qc_of_Z (Z.of_nat (length xs)) * hi.
Proof.
  induction 1 as [|x xs [Hlo Hhi] _ [IHlo IHhi]].
  - cbn [length sum_Qc foldr]. change (Z.of_nat 0) with 0%Z.
    rewrite Z2Qc_inj_0, !Qcmult_0_l. split; apply Qcle_refl.
  - cbn [length sum_Qc foldr]. fold (sum_Qc xs).
    rewrite Qc_of_nat_S, !Qcmult_plus_distr_l, !Qcmult_1_l.
    rewrite !(Qcplus_comm _ lo), !(Qcplus_comm _ hi).
    split; by apply Qcplus_le_compat.
Qed.

(** A mean lies between any two bounds of the numbers it averages. *)
Lemma mean_bounds (lo hi : Qc) (col : list (option Qc)) (m : Qc) :
  Forall (λ x, lo ≤ x ∧ x ≤ hi) (dropna col) →
  mean col = Some m → lo ≤ m ∧ m ≤ hi.
Proof.
  unfold mean. destruct (dropna col) as [|x xs] eqn:Hcol; [done|].
  intros Hall [= <-].
  destruct (sum_Qc_bounds lo hi (x :: xs) Hall) as [Hlo Hhi].
  set (n := Qc_of_Z (Z.of_nat (length (x :: xs)))) in *.
  assert (0 < n) as Hn.
  { unfold n. rewrite <-Z2Qc_inj_0. apply (proj1 (Z2Qc_inj_lt _ _)).
    simpl. lia. }
  assert (n ≠ 0) as Hn0 by (symmetry; by apply Qclt_not_eq).
  split.
  - apply (Qcmult_le_mono_pos_l _ _ n Hn). by rewrite Qcmult_div_r.
  - apply (Qcmult_le_mono_pos_l _ _ n Hn). by rewrite Qcmult_div_r.
Qed.

Lemma elem_of_top_neigh `{ArgSort} (df : Table) kv :
  kv ∈ top_neigh df → kv ∈ groupby_mean neighbourhood_cleansed price df.
Proof.
  unfold top_neigh, head. intros Hkv.
  apply elem_of_take in Hkv as (i & Hkv%list_elem_of_lookup_2 & _).
  destruct (sort_values_spec false
    (groupby_mean neighbourhood_cleansed price df)) as (? & ? & _ & _ & Hperm).
  by rewrite Hperm in Hkv.
Qed.

Lemma elem_of_groupby_mean key col df kv :
  kv ∈ groupby_mean key col df ↔
  Some kv.1 ∈ map key df ∧
  kv.2 = mean (map col (filter (λ r, key r = Some kv.1) df)).
Proof.
  unfold groupby_mean. rewrite list_elem_of_fmap. split.
  - intros (k & -> & Hk). simpl. split; [|done]. by apply elem_of_group_keys.
  - intros [Hk Hm]. exists kv.1. split.
    + destruct kv as [k m]. simpl in *. by rewrite Hm.
    + by apply elem_of_group_keys.
Qed.

(** X9. With a filtered table, the Avg. Price metric and every point of the
    neighbourhood price chart lie within the selected price range: the mean
    of the shown prices is a number between [min_price] and [max_price]
    unless no row is shown, and so is each neighbourhood's mean. *)
Theorem filtered_means_within_price_range `{ArgSort}
    (c : Criteria) (df : Table) :
  (apply_filters c df = [] ∨
   ∃ m, mean (map price (apply_filters c df)) = Some m ∧
        Qc_of_Z (min_price c) ≤ m ∧ m ≤ Qc_of_Z (max_price c)) ∧
  Forall (λ kv, ∃ m, kv.2 = Some m ∧
                     Qc_of_Z (min_price c) ≤ m ∧ m ≤ Qc_of_Z (max_price c))
         (top_neigh (apply_filters c df)).
Proof.
  assert (∀ rows : Table, rows ⊆ apply_filters c df →
    Forall (λ x, Qc_of_Z (min_price c) ≤ x ∧ x ≤ Qc_of_Z (max_price c))
           (dropna (map price rows))) as Hrange.
  { intros rows Hrows. apply Forall_forall. intros x Hx.
    apply elem_of_dropna, list_elem_of_fmap in Hx as (r & Hx & Hr).
    apply Hrows, elem_of_apply_filters in Hr as [Hok _].
    unfold row_ok in Hok. rewrite !andb_True in Hok.
    destruct Hok as [[_ Hp] _].
    apply price_ok_spec in Hp as (p & Hp & Hlo & Hhi).
    assert (x = p) as -> by congruence. done. }
  split.
  - destruct (apply_filters c df) as [|r rows] eqn:Hshown; [by left|right].
    rewrite <-Hshown in *.
    destruct (mean (map price (apply_filters c df))) as [m|] eqn:Hmean.
    + exists m. split; [done|].
      apply (mean_bounds _ _ (map price (apply_filters c df))); [|done].
      by apply Hrange.
    + exfalso. apply mean_None_iff in Hmean.
      pose proof (filtered_price_present c df) as Hpresent.
      rewrite Hshown in Hmean, Hpresent.
      apply Forall_cons in Hpresent as [[p Hp] _].
      apply Forall_cons in Hmean as [Hr _]. congruence.
  - apply Forall_forall. intros [k v] Hkv.
    apply elem_of_top_neigh, elem_of_groupby_mean in Hkv as [Hk Hv].
    simpl in *.
    pose proof (groupby_mean_present neighbourhood_cleansed price
                  (apply_filters c df) (filtered_price_present c df)) as Hsome.
    assert ((k, v) ∈ groupby_mean neighbourhood_cleansed price
                       (apply_filters c df)) as Hin.
    { by apply elem_of_groupby_mean. }
    eapply Forall_forall in Hsome as [m Hm]; [|exact Hin]. simpl in Hm.
    exists m. split; [done|]. rewrite Hm in Hv.
    eapply mean_bounds; [|by symmetry].
    apply Hrange. apply list_subseteq_filter.
Qed.

(** ** Grouping and the sorted charts, continued *)

(** X10. [groupby(key)[col].mean()] has one entry per distinct non-NaN key
    of the table, in ascending order of the keys: the labels are sorted,
    without repetition, and are exactly the texts found in the key column. *)
Theorem groupby_mean_labels (key : Row → option string)
    (col : Row → option Qc) (df : Table) :
  let labels := (groupby_mean key col df).*1 in
  Sorted String.le labels ∧
  NoDup labels ∧
  (∀ k, k ∈ labels ↔ Some k ∈ map key df).
Proof.
  assert ((groupby_mean key col df).*1 = group_keys (map key df)) as ->.
  { unfold groupby_mean. rewrite <-list_fmap_compose.
    apply list_fmap_id. }
  cbv zeta. split_and!.
  - apply Sorted_merge_sort. apply _.
  - unfold group_keys. rewrite merge_sort_Permutation. apply NoDup_remove_dups.
  - intros k. apply elem_of_group_keys.
Qed.

Lemma groupby_mean_NoDup key col df : NoDup (groupby_mean key col df).*1.
Proof.
  unfold groupby_mean. rewrite <-list_fmap_compose.
  change (NoDup (id <$> group_keys (map key df))). rewrite list_fmap_id.
  unfold group_keys. rewrite merge_sort_Permutation. apply NoDup_remove_dups.
Qed.

(** X11. Each neighbourhood appears at most once in the price chart, every
    label of the chart is the neighbourhood of some row of the table, and on
    a filtered table with a non-empty neighbourhood selection every label
    is one of the selected neighbourhoods. *)
Theorem top_neigh_labels `{ArgSort} (c : Criteria) (df : Table) :
  NoDup (top_neigh df).*1 ∧
  Forall (λ kv, Some kv.1 ∈ map neighbourhood_cleansed df) (top_neigh df) ∧
  (neighborhoods c = [] ∨
   Forall (λ kv, Some kv.1 ∈ neighborhoods c)
          (top_neigh (apply_filters c df))).
Proof.
  split_and!.
  - unfold top_neigh, head. rewrite fmap_take.
    eapply sublist_NoDup; [|apply sublist_take].
    destruct (sort_values_spec false
      (groupby_mean neighbourhood_cleansed price df))
      as (? & ? & _ & _ & Hperm).
    rewrite Hperm. apply groupby_mean_NoDup.
  - apply Forall_forall. intros kv Hkv.
    by apply elem_of_top_neigh, elem_of_groupby_mean in Hkv as [? _].
  - destruct (neighborhoods c) as [|n ns] eqn:Hsel; [by left|right].
    rewrite <-Hsel. apply Forall_forall. intros kv Hkv.
    apply elem_of_top_neigh, elem_of_groupby_mean in Hkv as [Hk _].
    apply list_elem_of_fmap in Hk as (r & Hk & Hr).
    apply elem_of_apply_filters in Hr as [Hok _].
    unfold row_ok in Hok. rewrite !andb_True in Hok.
    destruct Hok as [[[Hn _] _] _]. unfold neighbourhood_ok in Hn.
    apply selection_ok_spec in Hn as [Hn|Hn]; [congruence|]. by rewrite Hk.
Qed.

(** X12. With at most ten neighbourhoods the price chart shows every group:
    it is a rearrangement of the group means. *)
Theorem top_neigh_all_groups `{ArgSort} (df : Table) :
  (length (groupby_mean neighbourhood_cleansed price df) ≤ 10)%nat →
  top_neigh df ≡ₚ groupby_mean neighbourhood_cleansed price df.
Proof.
  intros Hlen. unfold top_neigh, head.
  destruct (sort_values_spec false
    (groupby_mean neighbourhood_cleansed price df)) as (? & ? & _ & _ & Hperm).
  rewrite take_ge; [done|]. by rewrite Hperm.
Qed.

(** X12, on the sample table and the merging sort. *)
Lemma top_neigh_all_groups_witness :
  @top_neigh merging_argsort tied_listings
  ≡ₚ groupby_mean neighbourhood_cleansed price tied_listings.
Proof.
  apply (@top_neigh_all_groups merging_argsort tied_listings).
  vm_compute. lia.
Defined.

(** X13. Line 105 returns the first ten entries of the mean availability
    per neighbourhood sorted by descending mean: their number is the
    smaller of ten and the number of groups, and the entries kept followed
    by the entries cut off are a rearrangement of the groups in which the
    means never increase and groups without any availability come last. *)
Theorem top_avail_top10_descending `{ArgSort} (df : Table) :
  let groups := groupby_mean neighbourhood_cleansed availability_365 df in
  length (top_avail df) = 10 `min` length groups ∧
  ∃ rest,
    top_avail df ++ rest ≡ₚ groups ∧
    StronglySorted (λ a b, nan_last (flip Qcle) a.2 b.2) (top_avail df ++ rest).
Proof.
  intros groups. unfold top_avail, head. fold groups.
  destruct (sort_values_spec false groups) as (vs & n & _ & _ & Hperm).
  split.
  - by rewrite length_take, Hperm.
  - exists (drop 10 (sort_values false groups)). rewrite take_drop.
    split; [done|]. apply (sort_values_sorted false).
Qed.


(** ** The metrics, continued *)

Lemma pretty_N_char_not_comma (x : N) : pretty_N_char x ≠ ","%char.
Proof. unfold pretty_N_char. by repeat case_match. Qed.

Lemma pretty_N_go_no_comma (x : N) (s : string) :
  Forall (λ ch, ch ≠ ","%char) (list_ascii_of_string s) →
  Forall (λ ch, ch ≠ ","%char) (list_ascii_of_string (pretty_N_go x s)).
Proof.
  revert s. induction (N.lt_wf_0 x) as [x _ IH]; intros s Hs.
  assert (x = 0 ∨ 0 < x)%N as [->|Hx] by lia.
  - by rewrite pretty_N_go_0.
  - rewrite pretty_N_go_step by done. apply IH.
    + by apply N.div_lt.
    + simpl. constructor; [apply pretty_N_char_not_comma|done].
Qed.

Lemma pretty_nat_no_comma (n : nat) :
  Forall (λ ch, ch ≠ ","%char) (list_ascii_of_string (pretty n)).
Proof.
  unfold pretty, pretty_nat, pretty, pretty_N. case_decide.
  - simpl. by repeat constructor.
  - apply pretty_N_go_no_comma. constructor.
Qed.

Lemma commas_rev_step a b d e rest :
  commas_rev (a :: b :: d :: e :: rest)
  = a :: b :: d :: ","%char :: commas_rev (e :: rest).
Proof. done. Qed.

Lemma commas_rev_strip (n : nat) (ds : list ascii) :
  (length ds ≤ n)%nat →
  Forall (λ ch, ch ≠ ","%char) ds →
  filter (λ ch, ch ≠ ","%char) (commas_rev ds) = ds.
Proof.
  revert ds. induction n as [|n IH]; intros ds Hlen Hds.
  { destruct ds; [done|simpl in Hlen; lia]. }
  destruct ds as [|a [|b [|d [|e rest]]]];
    try (simpl; by apply filter_all).
  rewrite commas_rev_step.
  apply Forall_cons in Hds as [Ha Hds]. apply Forall_cons in Hds as [Hb Hds].
  apply Forall_cons in Hds as [Hd Hds].
  rewrite !filter_cons_True by done.
  rewrite filter_cons_False by (by intros ?).
  do 3 f_equal. apply IH; [simpl in *; lia|done].
Qed.

(** Grouping adds one comma for every three digits that have a digit
    after them. *)
Lemma commas_rev_length (n : nat) (ds : list ascii) :
  (length ds ≤ n)%nat →
  length (commas_rev ds) = (length ds + (length ds - 1) / 3)%nat.
Proof.
  revert ds. induction n as [|n IH]; intros ds Hlen.
  { destruct ds; [done|simpl in Hlen; lia]. }
  destruct ds as [|a [|b [|d [|e rest]]]]; try done.
  rewrite commas_rev_step. cbn [length].
  rewrite IH by (simpl in *; lia). cbn [length].
  replace (S (S (S (S (length rest)))) - 1)%nat
    with (S (length rest) - 1 + 1 * 3)%nat by lia.
  rewrite Nat.div_add by done. lia.
Qed.

(** In the grouped digits the commas stand at every fourth place, and
    nowhere else. *)
Lemma commas_rev_lookup (n : nat) (ds : list ascii) (i : nat) :
  (length ds ≤ n)%nat →
  Forall (λ ch, ch ≠ ","%char) ds →
  commas_rev ds !! i = Some ","%char ↔
  (i `mod` 4 = 3 ∧ i < length (commas_rev ds))%nat.
Proof.
  revert ds i. induction n as [|n IH]; intros ds i Hlen Hds.
  { destruct ds; [|simpl in Hlen; lia]. simpl. split; [done|lia]. }
  assert (∀ l : list ascii, (length l ≤ 3)%nat →
            Forall (λ ch, ch ≠ ","%char) l →
            l !! i = Some ","%char ↔ (i `mod` 4 = 3 ∧ i < length l)%nat)
    as Hshort.
  { intros l Hl Hall. split.
    - intros Hi. apply list_elem_of_lookup_2 in Hi.
      eapply Forall_forall in Hall; [|exact Hi]. done.
    - intros [Hmod Hi]. exfalso.
      rewrite Nat.mod_small in Hmod by lia. lia. }
  destruct ds as [|a [|b [|d [|e rest]]]];
    try (apply Hshort; [simpl; lia|done]).
  rewrite commas_rev_step.
  apply Forall_cons in Hds as [Ha Hds]. apply Forall_cons in Hds as [Hb Hds].
  apply Forall_cons in Hds as [Hd Hds].
  destruct i as [|[|[|[|k]]]]; cbn [lookup list_lookup length].
  - split; [by intros [= ?]|]. intros [Hmod _]. by vm_compute in Hmod.
  - split; [by intros [= ?]|]. intros [Hmod _]. by vm_compute in Hmod.
  - split; [by intros [= ?]|]. intros [Hmod _]. by vm_compute in Hmod.
  - split; [|done]. intros _. split; [done|lia].
  - rewrite IH by (simpl in *; first [lia|done]).
    replace (S (S (S (S k)))) with (k + 1 * 4)%nat by lia.
    rewrite Nat.Div0.mod_add. lia.
Qed.

(** X14. The Listings metric is the row count written in decimal with a
    comma between groups of three digits, counted from the right: numbering
    its characters from the right and from 0, the characters at places 3,
    7, 11, ... are commas and no other character is; taking the commas out
    leaves the decimal digits of the number of rows shown; and there is
    one comma for every three digits that have a digit to their left. *)
Theorem kpi_listings_digits (filtered_df : Table) :
  strip_commas (kpi_listings filtered_df) = pretty (length filtered_df) ∧
  (∀ i, reverse (list_ascii_of_string (kpi_listings filtered_df)) !! i
        = Some ","%char ↔
        (i `mod` 4 = 3 ∧
         i < length (list_ascii_of_string (kpi_listings filtered_df)))%nat) ∧
  length (list_ascii_of_string (kpi_listings filtered_df))
  = (length (list_ascii_of_string (pretty (length filtered_df)))
     + (length (list_ascii_of_string (pretty (length filtered_df))) - 1) / 3)%nat.
Proof.
  unfold strip_commas, kpi_listings, format_thousands.
  rewrite list_ascii_of_string_of_list_ascii.
  set (ds := reverse (list_ascii_of_string (pretty (length filtered_df)))).
  assert (Forall (λ ch, ch ≠ ","%char) ds) as Hds
    by apply Forall_reverse, pretty_nat_no_comma.
  split_and!.
  - rewrite filter_reverse, (commas_rev_strip (length ds)); [|done|done].
    unfold ds. by rewrite reverse_involutive, string_of_list_ascii_of_string.
  - intros i. rewrite reverse_involutive, length_reverse.
    by apply (commas_rev_lookup (length ds)).
  - rewrite length_reverse, (commas_rev_length (length ds)) by done.
    unfold ds. by rewrite length_reverse.
Qed.

(** A number never prints as [nan]: its rendering has a decimal point. *)
Lemma format_2f_nan (x : option Qc) : format_2f x = "nan" ↔ x = None.
Proof.
  split; [|by intros ->]. destruct x as [v|]; [|done]. intros Hnan.
  assert ("."%char ∈ list_ascii_of_string (format_2f (Some v))) as Hdot.
  { unfold format_2f. rewrite !list_ascii_of_string_app, !elem_of_app.
    right. right. left. simpl. by left. }
  rewrite Hnan in Hdot. simpl in Hdot.
  repeat (apply elem_of_cons in Hdot as [Hdot|Hdot]; [discriminate Hdot|]).
  by apply elem_of_nil in Hdot.
Qed.

(** X15. The Avg. Price metric reads [$nan] exactly when no row is shown,
    and the Avg. Rating metric reads [nan] exactly when no shown row has a
    review score. *)
Theorem kpi_nan_iff_no_data (c : Criteria) (df : Table) :
  (kpi_avg_price (apply_filters c df) = "$nan" ↔ apply_filters c df = []) ∧
  (kpi_avg_rating (apply_filters c df) = "nan" ↔
   Forall (λ r, review_score_avg r = None) (apply_filters c df)).
Proof.
  unfold kpi_avg_price, kpi_avg_rating. split.
  - transitivity (format_2f (mean (map price (apply_filters c df))) = "nan").
    { change ("$" +:+ format_2f (mean (map price (apply_filters c df))))
        with (String "$" (format_2f (mean (map price (apply_filters c df))))).
      split; [by intros [= ?]|by intros ->]. }
    rewrite format_2f_nan, mean_None_iff.
    pose proof (filtered_price_present c df) as Hpresent.
    destruct (apply_filters c df) as [|r rows]; [done|].
    split; [|done]. intros Hnone.
    apply Forall_cons in Hpresent as [[p Hp] _].
    apply Forall_cons in Hnone as [Hr _]. congruence.
  - rewrite format_2f_nan, mean_None_iff. apply Forall_fmap.
Qed.

(** ** The run as a whole, continued *)









(** X17. The pie chart gets one pull entry of 0.05 per distinct room type
    cell of the shown rows: none exactly when no row is shown, and never
    more than for the whole loaded table. *)
Theorem pull_per_room_type (c : Criteria) (df : Table) :
  Forall (λ x, x = Qc_of_Z 5 / Qc_of_Z 100) (pull (apply_filters c df)) ∧
  length (pull (apply_filters c df))
    = length (remove_dups (map room_type (apply_filters c df))) ∧
  (pull (apply_filters c df) = [] ↔ apply_filters c df = []) ∧
  (length (pull (apply_filters c df)) ≤ length (pull df))%nat.
Proof.
  unfold pull. split_and!.
  - apply Forall_forall. by intros x ?%elem_of_replicate_inv.
  - by rewrite length_replicate.
  - destruct (apply_filters c df) as [|r rows]; [done|].
    split; [|done]. intros Hnil.
    apply (f_equal length) in Hnil. rewrite length_replicate in Hnil.
    assert (room_type r ∈ remove_dups (map room_type (r :: rows))) as Hin.
    { apply elem_of_remove_dups. by left. }
    destruct (remove_dups (map room_type (r :: rows))) as [|y ys].
    + by apply elem_of_nil in Hin.
    + simpl in Hnil. discriminate Hnil.
  - rewrite !length_replicate. apply submseteq_length, NoDup_submseteq.
    + apply NoDup_remove_dups.
    + intros x Hx. apply (proj1 (elem_of_remove_dups _ _)) in Hx.
      apply elem_of_remove_dups.
      apply list_elem_of_fmap in Hx as (r & -> & Hr).
      apply list_elem_of_fmap_2.
      by apply elem_of_apply_filters in Hr as [_ ?].
Qed.

(** X18. The reviews chart (line 119) has one point per room type of the
    table it is given, each room type once; on a filtered table with a
    non-empty room type selection every room type shown is a selected
    one. *)
Theorem avg_reviews_labels `{ArgSort} (c : Criteria) (df : Table) :
  NoDup (avg_reviews df).*1 ∧
  (∀ k, k ∈ (avg_reviews df).*1 ↔ Some k ∈ map room_type df) ∧
  (room_types c = [] ∨
   Forall (λ kv, Some kv.1 ∈ room_types c) (avg_reviews (apply_filters c df))).
Proof.
  assert (∀ t : Table,
    (avg_reviews t).*1 ≡ₚ group_keys (map room_type t)) as Hlabels.
  { intros t. unfold avg_reviews.
    destruct (sort_values_spec true
      (groupby_mean room_type reviews_per_month t)) as (? & ? & _ & _ & ->).
    unfold groupby_mean. rewrite <-list_fmap_compose.
    change (id <$> group_keys (map room_type t) ≡ₚ group_keys (map room_type t)).
    by rewrite list_fmap_id. }
  split_and!.
  - rewrite Hlabels. unfold group_keys.
    rewrite merge_sort_Permutation. apply NoDup_remove_dups.
  - intros k. rewrite Hlabels. apply elem_of_group_keys.
  - destruct (room_types c) as [|t ts] eqn:Hsel; [by left|right].
    rewrite <-Hsel. apply Forall_forall. intros [k v] Hkv. simpl.
    assert (k ∈ (avg_reviews (apply_filters c df)).*1) as Hk.
    { apply list_elem_of_fmap. by exists (k, v). }
    rewrite Hlabels in Hk.
    apply elem_of_group_keys, list_elem_of_fmap in Hk as (r & Hk & Hr).
    apply elem_of_apply_filters in Hr as [Hok _].
    unfold row_ok in Hok. rewrite !andb_True in Hok.
    destruct Hok as [[[_ Hrt] _] _]. unfold room_type_ok in Hrt.
    apply selection_ok_spec in Hrt as [Hrt|Hrt]; [congruence|]. by rewrite Hk.
Qed.

(** X19. For a non-empty table whose prices are all whole numbers from 0
    to [MAX_SAFE_INTEGER], the slider is built, its range runs from 0 to
    the larger of 500 and the dearest price, and that whole range, with
    nothing else selected, shows every row of the table. *)
Theorem whole_slider_range_whole_prices (df : Table) :
  df ≠ [] →
  Forall (λ r, ∃ z, price r = Some (Qc_of_Z z) ∧
                    (0 ≤ z ≤ MAX_SAFE_INTEGER)%Z) df →
  ∃ z, col_max (map price df) = Some (Qc_of_Z z) ∧
       price_range_slider df = inr (0%Z, Z.max z 500) ∧
       apply_filters (mkCriteria [] [] 0 (Z.max z 500) false) df = df.
Proof.
  intros Hne Hall.
  pose proof (eq_refl : MAX_SAFE_INTEGER = 9007199254740991%Z) as Hsafe.
  destruct (col_max (map price df)) as [m|] eqn:Hmax.
  - destruct (col_max_spec _ _ Hmax) as [Hin Hle].
    apply list_elem_of_fmap in Hin as (r & Hr & Hin).
    eapply Forall_forall in Hall as Hz; [|exact Hin].
    destruct Hz as (z & Hz & Hz0 & Hzmax).
    assert (m = Qc_of_Z z) as -> by congruence.
    exists z. split_and!; [done| |].
    + unfold price_range_slider, slider_bounds, slider.
      rewrite Hmax, int_of_Qc_of_Z. cbn [fst snd].
      rewrite bool_decide_eq_true_2 by lia. f_equal. f_equal; lia.
    + apply full_range_keeps_priced_rows, Forall_forall. intros r' Hr'.
      eapply Forall_forall in Hall as (z' & Hz' & Hpos & _); [|exact Hr'].
      exists (Qc_of_Z z').
      split_and!; [done|by apply (proj1 (Z2Qc_inj_le _ _))|].
      eapply Qcle_trans.
      * apply Hle. rewrite <-Hz'. by apply list_elem_of_fmap_2.
      * apply (proj1 (Z2Qc_inj_le _ _)). lia.
  - exfalso. destruct df as [|r df]; [done|].
    apply Forall_cons in Hall as [(z & Hz & _) _].
    unfold col_max, dropna in Hmax. simpl in Hmax. rewrite Hz in Hmax.
    simpl in Hmax. done.
Qed.

(** X19, over the two sample listings priced 500. *)
Lemma whole_slider_range_whole_prices_witness :
  ∃ z, col_max (map price tied_listings) = Some (Qc_of_Z z) ∧
       price_range_slider tied_listings = inr (0%Z, Z.max z 500) ∧
       apply_filters (mkCriteria [] [] 0 (Z.max z 500) false) tied_listings
       = tied_listings.
Proof.
  apply (whole_slider_range_whole_prices tied_listings); [discriminate|].
  repeat constructor; exists 500%Z;
    (split; [reflexivity|vm_compute; split; discriminate]).
Defined.
